(** * RC4 key recovery (solve.py): a shallow embedding of the attack core

    The development follows [solve.py]: Python exceptions are an error
    monad, [bytes] objects are lists of [Byte.byte], Python integers are
    [Z], the list [S] (written [S_] here, [S] being the successor of
    [nat]) is a [list Z] read and written by index, and the dictionary of
    [count_elements] is a [gmap Z Z]. *)

From Stdlib Require Import ZArith Lia.
From Stdlib Require Strings.Byte.
From Stdlib Require Import Strings.Ascii.
From stdpp Require Import base option list list_numbers gmap strings.

Open Scope Z_scope.

Abbreviation byte := Byte.byte.

(** ** Python exceptions as an error monad *)

Inductive exn : Set :=
  | IndexError | KeyError | TypeError | ValueError | OverflowError
  | UnicodeDecodeError.

Inductive result (A : Type) : Type :=
  | Ok (a : A)
  | Raise (e : exn).
Arguments Ok {A} a.
Arguments Raise {A} e.

#[export] Instance result_ret : MRet result := λ A a, Ok a.
#[export] Instance result_bind : MBind result := λ A B f m,
  match m with
  | Ok a => f a
  | Raise e => Raise e
  end.

Definition is_Ok {A} (r : result A) : Prop := ∃ a, r = Ok a.

(** A [for] loop over a list whose body may raise. *)
Fixpoint foldlM {A B} (f : B → A → result B) (b : B) (l : list A) : result B :=
  match l with
  | [] => Ok b
  | a :: l' => b' ← f b a; foldlM f b' l'
  end.

(** A [for] loop that appends one value per element to a fresh list. *)
Fixpoint mapM {A B} (f : A → result B) (l : list A) : result (list B) :=
  match l with
  | [] => Ok []
  | a :: l' => b ← f a; bs ← mapM f l'; Ok (b :: bs)
  end.

(** ** Python sequences *)

Definition len {A} (l : list A) : Z := Z.of_nat (length l).

(** [l[i]]: a negative index counts from the end, an index out of range
    raises [IndexError]. *)
Definition getitem {A} (l : list A) (i : Z) : result A :=
  let k := if bool_decide (i < 0) then i + len l else i in
  if bool_decide (k < 0) then Raise IndexError
  else match l !! Z.to_nat k with
       | Some x => Ok x
       | None => Raise IndexError
       end.

(** [l[i] = x] on a list. *)
Definition setitem {A} (l : list A) (i : Z) (x : A) : result (list A) :=
  let k := if bool_decide (i < 0) then i + len l else i in
  if bool_decide (k < 0) then Raise IndexError
  else if bool_decide (k < len l) then Ok (<[Z.to_nat k := x]> l)
  else Raise IndexError.

(** [range(n)] *)
Definition range (n : Z) : list Z := seqZ 0 n.

(** Indexing or iterating a [bytes] object yields integers. *)
Definition byte_to_Z (b : byte) : Z := Z.of_N (Byte.to_N b).

(** [bytes([v])]: [ValueError] unless [v] is in [range(256)]. *)
Definition bytes_of_int (v : Z) : result (list byte) :=
  if bool_decide (0 ≤ v) then
    match Byte.of_N (Z.to_N v) with
    | Some b => Ok [b]
    | None => Raise ValueError
    end
  else Raise ValueError.

(** ** The key scheduling replay (solve.py, lines 249-254) *)

Module KSA.

(** The state [(S, j)] of the replay. *)
Definition state : Type := list Z * Z.

(** [S = [i for i in range(256)]], [j = 0] *)
Definition init : state := (range 256, 0).

(** One iteration of the loop body at index [i]:
    [j = (j + S[i] + known_bytes[i]) % 256] and then
    [S[i], S[j] = S[j], S[i]] (the right-hand side is read first, then
    [S[i]] is written, then [S[j]]). *)
Definition round (known_bytes : list byte) (st : state) (i : Z) : result state :=
  let '(S_, j) := st in
  Si ← getitem S_ i;
  kb ← getitem known_bytes i;
  let j := (j + Si + byte_to_Z kb) `mod` 256 in
  Sj ← getitem S_ j;
  Si ← getitem S_ i;
  S_ ← setitem S_ i Sj;
  S_ ← setitem S_ j Si;
  Ok (S_, j).

(** The state after the first [k] iterations of the loop. *)
Definition rounds (known_bytes : list byte) (k : Z) : result state :=
  foldlM (round known_bytes) init (range k).

(** The whole loop, [for i in range(num_known_bytes)]. *)
Definition simulate (known_bytes : list byte) : result state :=
  rounds known_bytes (len known_bytes).

End KSA.

(** ** The majority selector (solve.py, lines 123-134) *)

(** [counts = {x: 0 for x in xs}] *)
Definition zero_counts (xs : list Z) : gmap Z Z :=
  foldl (λ counts x, <[x := 0]> counts) ∅ xs.

(** [counts[x] += 1]: reading a missing key raises [KeyError]. *)
Definition increment (counts : gmap Z Z) (x : Z) : result (gmap Z Z) :=
  match counts !! x with
  | Some c => Ok (<[x := c + 1]> counts)
  | None => Raise KeyError
  end.

Definition count_elements (xs : list Z) : result (gmap Z Z) :=
  foldlM increment (zero_counts xs) xs.

(** [a > b] on the values of [counts.get]: comparing with [None] raises
    [TypeError]. *)
Definition gt_key (a b : option Z) : result bool :=
  match a, b with
  | Some x, Some y => Ok (bool_decide (y < x))
  | _, _ => Raise TypeError
  end.

(** The scan of [max(xs, key=...)]: the running maximum is replaced only
    by an item whose key is strictly greater. *)
Fixpoint max_scan (key : Z → option Z) (best : Z) (best_key : option Z)
    (xs : list Z) : result Z :=
  match xs with
  | [] => Ok best
  | x :: xs' =>
      let k := key x in
      b ← gt_key k best_key;
      if b : bool then max_scan key x k xs' else max_scan key best best_key xs'
  end.

(** [max(xs, key=key)]: [ValueError] on an empty sequence. *)
Definition max_by (key : Z → option Z) (xs : list Z) : result Z :=
  match xs with
  | [] => Raise ValueError
  | x :: xs' => max_scan key x (key x) xs'
  end.

Definition most_common_element (xs : list Z) : result Z :=
  counts ← count_elements xs;
  max_by (λ x, counts !! x) xs.

(** ** One sample of one round (solve.py, lines 243-330) *)

(** A sample is [(counter, keystream)], both [bytes]. *)
Definition sample : Type := list byte * list byte.

(** [for x in range(256): if S[x] == next_S_i: pre_i = x; break], with
    [pre_i = None] before the loop. *)
Fixpoint find_pre_i (S_ : list Z) (next_S_i : Z) (xs : list Z) : result (option Z) :=
  match xs with
  | [] => Ok None
  | x :: xs' =>
      Sx ← getitem S_ x;
      if bool_decide (Sx = next_S_i) then Ok (Some x)
      else find_pre_i S_ next_S_i xs'
  end.

(** [pre_i - j]: [TypeError] when [pre_i] is still [None]. *)
Definition sub_pre_i (pre_i : option Z) (j : Z) : result Z :=
  match pre_i with
  | Some x => Ok (x - j)
  | None => Raise TypeError
  end.

(** The body of [for counter, keystream in samples], up to the value that
    is appended to [candidate_key_bytes]. *)
Definition candidate_key_byte (nonce key : list byte) (s : sample) : result Z :=
  let '(counter, keystream) := s in
  let known_bytes := nonce ++ counter ++ key in
  let num_known_bytes := len known_bytes in
  '(S_, j) ← KSA.simulate known_bytes;
  output_byte ← getitem keystream (num_known_bytes - 1);
  let next_S_i := (num_known_bytes - byte_to_Z output_byte) `mod` 256 in
  pre_i ← find_pre_i S_ next_S_i (range 256);
  d ← sub_pre_i pre_i j;
  Sn ← getitem S_ num_known_bytes;
  Ok ((d - Sn) `mod` 256).

(** The candidate list of one round. *)
Definition candidate_key_bytes (nonce key : list byte) (samples : list sample)
    : result (list Z) :=
  mapM (candidate_key_byte nonce key) samples.

(** The body of the [while] loop: the key after one more round. *)
Definition recover_byte (nonce : list byte) (samples : list sample) (key : list byte)
    : result (list byte) :=
  candidates ← candidate_key_bytes nonce key samples;
  chosen_key_byte ← most_common_element candidates;
  b ← bytes_of_int chosen_key_byte;
  Ok (key ++ b).

(** The byte with the value [z mod 256]. *)
Definition Z_to_byte (z : Z) : byte :=
  default Byte.x00 (Byte.of_N (Z.to_N (z `mod` 256))).

(** [bytes([xor(pt, ct) for pt, ct in zip(plaintext, ciphertext)])]
    (line 226): [zip] stops at the end of the shorter sequence. *)
Definition xor_bytes (plaintext ciphertext : list byte) : list byte :=
  zip_with (λ pt ct, Z_to_byte (Z.lxor (byte_to_Z pt) (byte_to_Z ct)))
    plaintext ciphertext.

(** [n.to_bytes(length=length, byteorder="little", signed=False)] *)
Fixpoint le_digits (length : nat) (n : Z) : list byte :=
  match length with
  | O => []
  | S length' => Z_to_byte n :: le_digits length' (n `div` 256)
  end.

(** The [length] argument ranges over the lengths a [bytes] object can
    have: beyond the C [ssize_t] range [int.to_bytes] raises
    [OverflowError] while it converts the argument, which is left out
    here. *)
Definition to_bytes (n length : Z) : result (list byte) :=
  if bool_decide (length < 0) then Raise ValueError
  else if bool_decide (n < 0) then Raise OverflowError
  else if bool_decide (256 ^ length ≤ n) then Raise OverflowError
  else Ok (le_digits (Z.to_nat length) n).

#[export] Instance byte_eq_dec : EqDecision byte := Byte.byte_eq_dec.

(** ** The verifier and the driver (solve.py, lines 167-189 and 238-354) *)

(** The held-out record sampled at the start of [attack]. *)
Record test_vector : Type := TestVector {
  test_nonce : list byte;
  test_counter : Z;
  test_pt : list byte;
  test_ct : list byte
}.

(** How the recovery loop can end: the verifier accepted [key], an
    exception left the loop uncaught, or the loop is still running with
    [key] when the fuel of the model is used up. *)
Inductive outcome : Type :=
  | Verified (key : list byte)
  | Uncaught (e : exn)
  | Running (key : list byte).

Section Attack.

(** [Cipher(algorithms.ARC4(key_bytes), mode=None, ...).encryptor().update(plaintext)]
    of the [cryptography] package, which is not part of the repository:
    any function from a key and a plaintext to a ciphertext or an
    exception. *)
Variable arc4_update : list byte → list byte → result (list byte).

(** The body of the [try] block of [test_key]. *)
Definition test_key_try (nonce : list byte) (counter counter_size : Z)
    (key plaintext expected_ciphertext : list byte) : result bool :=
  counter_bytes ← to_bytes counter counter_size;
  let key_bytes := nonce ++ counter_bytes ++ key in
  ciphertext ← arc4_update key_bytes plaintext;
  Ok (bool_decide (ciphertext = expected_ciphertext)).

(** [test_key]: the bare [except:] turns every exception into [False]. *)
Definition test_key (nonce : list byte) (counter counter_size : Z)
    (key plaintext expected_ciphertext : list byte) : bool :=
  match test_key_try nonce counter counter_size key plaintext expected_ciphertext with
  | Ok b => b
  | Raise _ => false
  end.

Variable tv : test_vector.
Variable counter_size : Z.
Variable nonce : list byte.
Variable samples : list sample.

(** The condition of the [while] loop, negated. *)
Definition verified (key : list byte) : bool :=
  test_key (test_nonce tv) (test_counter tv) counter_size key (test_pt tv) (test_ct tv).

(** [while not test_key(...): ...] started with the given key, run for
    at most [fuel] tests of the condition. *)
Fixpoint recover (fuel : nat) (key : list byte) : outcome :=
  match fuel with
  | O => Running key
  | S fuel' =>
      if verified key then Verified key
      else match recover_byte nonce samples key with
           | Ok key' => recover fuel' key'
           | Raise e => Uncaught e
           end
  end.

(** The loop of [attack] from [key = b""], followed by the
    [key.decode("ascii")] of the final log line, which raises on a byte
    above 127. *)
Definition attack (fuel : nat) : outcome :=
  match recover fuel [] with
  | Verified key =>
      if forallb (λ b, bool_decide (byte_to_Z b < 128)) key then Verified key
      else Uncaught UnicodeDecodeError
  | o => o
  end.

(** One iteration of the loop as a step on the key. *)
Definition loop_step (key key' : list byte) : Prop :=
  verified key = false ∧ recover_byte nonce samples key = Ok key'.

(** [loop_steps r key key']: [r] iterations lead from [key] to [key']. *)
Inductive loop_steps : nat → list byte → list byte → Prop :=
  | steps_O key : loop_steps O key key
  | steps_S r key key' key'' :
      loop_step key key' → loop_steps r key' key'' →
      loop_steps (S r) key key''.

End Attack.

(** ** A cipher to run the driver with

    The [cryptography] package is an external collaborator of solve.py;
    this module is a plain RC4 with the key sizes that package accepts
    for [ARC4], and serves to instantiate [arc4_update] when the driver
    is evaluated on concrete inputs. *)
Module ARC4.

Definition key_sizes : list Z := [40; 56; 64; 80; 128; 160; 192; 256].

Definition swap (S_ : list Z) (i j : Z) : result (list Z) :=
  Si ← getitem S_ i;
  Sj ← getitem S_ j;
  S_ ← setitem S_ i Sj;
  setitem S_ j Si.

Definition schedule_round (key : list byte) (st : list Z * Z) (i : Z)
    : result (list Z * Z) :=
  let '(S_, j) := st in
  Si ← getitem S_ i;
  kb ← getitem key (i `mod` len key);
  let j := (j + Si + byte_to_Z kb) `mod` 256 in
  S_ ← swap S_ i j;
  Ok (S_, j).

Definition schedule (key : list byte) : result (list Z) :=
  '(S_, _) ← foldlM (schedule_round key) (range 256, 0) (range 256);
  Ok S_.

Definition output (st : list Z * Z * Z * list byte) (pt : byte)
    : result (list Z * Z * Z * list byte) :=
  let '(S_, i, j, out) := st in
  let i := (i + 1) `mod` 256 in
  Si ← getitem S_ i;
  let j := (j + Si) `mod` 256 in
  S_ ← swap S_ i j;
  Si ← getitem S_ i;
  Sj ← getitem S_ j;
  K ← getitem S_ ((Si + Sj) `mod` 256);
  Ok (S_, i, j, out ++ [Z_to_byte (Z.lxor (byte_to_Z pt) K)]).

Definition update (key plaintext : list byte) : result (list byte) :=
  if bool_decide (8 * len key ∈ key_sizes) then
    S_ ← schedule key;
    '(_, _, _, out) ← foldlM output (S_, 0, 0, []) plaintext;
    Ok out
  else Raise ValueError.

End ARC4.

(** ** Notions used to state the properties *)

(** What a successful read or write says about the list: [pos l i] is the
    slot that the Python index [i] names. *)
Definition pos {A} (l : list A) (i : Z) : nat :=
  Z.to_nat (if bool_decide (i < 0) then i + len l else i).

(** The replay as the specification words it: one round per known byte,
    on a list read and written by position. *)
Module KSASpec.

Definition swap (S_ : list Z) (i j : nat) : list Z :=
  <[j := S_ !!! i]> (<[i := S_ !!! j]> S_).

Definition step (st : list Z * Z) (i : nat) (kb : byte) : list Z * Z :=
  let j := (st.2 + st.1 !!! i + byte_to_Z kb) `mod` 256 in
  (swap st.1 i (Z.to_nat j), j).

Fixpoint run (st : list Z * Z) (i : nat) (known_bytes : list byte) : list Z * Z :=
  match known_bytes with
  | [] => st
  | kb :: rest => run (step st i kb) (S i) rest
  end.

Definition simulate_ksa (known_bytes : list byte) : list Z * Z :=
  run (seqZ 0 256, 0) 0%nat known_bytes.

End KSASpec.

(** The invariant of the replay. *)
Definition ksa_inv (st : KSA.state) : Prop :=
  st.1 ≡ₚ range 256 ∧ 0 ≤ st.2 < 256.

(** [least_index S_ v x]: [x] is the smallest index in [0..255] with
    [S[x] == v]. *)
Definition least_index (S_ : list Z) (v x : Z) : Prop :=
  S_ !! Z.to_nat x = Some v ∧ 0 ≤ x < 256
  ∧ ∀ y, 0 ≤ y < x → S_ !! Z.to_nat y ≠ Some v.

(** A sample is well formed for a round when the known-byte prefix fits
    below the 256 slots of [S] and the keystream reaches the position
    after the prefix. *)
Definition well_formed_sample (nonce key : list byte) (s : sample) : Prop :=
  let known_bytes := nonce ++ s.1 ++ key in
  len known_bytes < 256 ∧ len known_bytes ≤ len s.2 ∧ s.2 ≠ [].

(** The candidate of a sample as the specification words it. *)
Definition candidate_spec (nonce key : list byte) (s : sample) (c : Z) : Prop :=
  let known_bytes := nonce ++ s.1 ++ key in
  let num_known_bytes := len known_bytes in
  ∃ S_ j output_byte pre_i Sn,
    KSA.simulate known_bytes = Ok (S_, j)
    ∧ getitem s.2 (num_known_bytes - 1) = Ok output_byte
    ∧ least_index S_ ((num_known_bytes - byte_to_Z output_byte) `mod` 256) pre_i
    ∧ getitem S_ num_known_bytes = Ok Sn
    ∧ c = (pre_i - j - Sn) `mod` 256.

(** The tally of a value in a candidate sequence. *)
Definition tally (xs : list Z) (v : Z) : Z := Z.of_nat (count_occ Z.eq_dec xs v).

(** [first_max f l v]: [v] stands in [l] at a position where [f] is
    maximal over [l] and strictly greater than at every earlier
    position. *)
Definition first_max (f : Z → Z) (l : list Z) (v : Z) : Prop :=
  ∃ i : nat, l !! i = Some v
    ∧ (∀ y, y ∈ l → f y ≤ f v)
    ∧ (∀ (i' : nat) y, (i' < i)%nat → l !! i' = Some y → f y < f v).

(** The unsigned integer that a byte sequence encodes in little-endian
    order ([int.from_bytes(bs, "little")]). *)
Definition le_int (bs : list byte) : Z :=
  foldr (λ b acc, byte_to_Z b + 256 * acc) 0 bs.

(** A sample is malformed for a configuration when its counter is not
    [counter_size] bytes long or its keystream is not [block_size] bytes
    long. *)
Definition malformed_sample (counter_size block_size : Z) (s : sample) : Prop :=
  len s.1 ≠ counter_size ∨ len s.2 ≠ block_size.

(** ** A small run of the attack

    The secret key is the one byte [0x41], so the configured [key_size]
    is 1.  Nonces have three bytes, counters one byte and blocks eight
    bytes; the single sample is the keystream of block 0, and the test
    vector is the all-zero block 7 under another nonce. *)
Module Scenario.

Definition key_size : Z := 1.
Definition counter_size : Z := 1.
Definition block_size : Z := 8.
Definition secret : list byte := [Byte.x41].
Definition nonce : list byte := [Byte.x01; Byte.x02; Byte.x03].

Definition keystream : list byte :=
  [Byte.xbe; Byte.x84; Byte.x3a; Byte.xbe; Byte.xde; Byte.x9b; Byte.x3e; Byte.x55].

Definition samples : list sample := [([Byte.x00], keystream)].

Definition tv : test_vector :=
  {| test_nonce := [Byte.x04; Byte.x05; Byte.x06];
     test_counter := 7;
     test_pt := replicate 8 Byte.x00;
     test_ct :=
       [Byte.xaa; Byte.x91; Byte.x96; Byte.xc1; Byte.x54; Byte.x78; Byte.x60; Byte.x41] |}.

End Scenario.

(** The same configuration with the secret byte [0x8b], which the single
    sample happens to recover. *)
Module HighByte.

Definition secret : list byte := [Byte.x8b].

Definition keystream : list byte :=
  [Byte.x73; Byte.x97; Byte.xef; Byte.x6d; Byte.xfd; Byte.x80; Byte.xba; Byte.x1a].

Definition samples : list sample := [([Byte.x00], keystream)].

Definition tv : test_vector :=
  {| test_nonce := [Byte.x04; Byte.x05; Byte.x06];
     test_counter := 7;
     test_pt := replicate 8 Byte.x00;
     test_ct :=
       [Byte.x16; Byte.xbb; Byte.x27; Byte.x93; Byte.x86; Byte.xdc; Byte.x81; Byte.x61] |}.

End HighByte.

(** A run in which the single sample recovers the secret byte [0x4f]. *)
Module Ascii.

Definition secret : list byte := [Byte.x4f].

Definition keystream : list byte :=
  [Byte.x15; Byte.xbf; Byte.x8e; Byte.xa9; Byte.x50; Byte.x6e; Byte.xd7; Byte.x42].

Definition samples : list sample := [([Byte.x00], keystream)].

Definition tv : test_vector :=
  {| test_nonce := [Byte.x04; Byte.x05; Byte.x06];
     test_counter := 7;
     test_pt := replicate 8 Byte.x00;
     test_ct :=
       [Byte.xe1; Byte.xce; Byte.x37; Byte.x9c; Byte.x18; Byte.xb8; Byte.x32; Byte.xc7] |}.

End Ascii.

(** ** The histogram data (solve.py, lines 137-144)

    [plot_key_character_frequencies] up to the two columns it hands to
    the bar plot: [keys = [k for k in range(256)]] and
    [counts = [count_dict.get(k, 0) for k in range(256)]]. *)
Definition plot_key_character_frequencies (candidate_key_bytes : list Z)
    : result (list Z * list Z) :=
  count_dict ← count_elements candidate_key_bytes;
  let keys := range 256 in
  let counts := (λ k, default 0 (count_dict !! k)) <$> range 256 in
  Ok (keys, counts).

(** [sum(l)] *)
Definition sum (l : list Z) : Z := foldr Z.add 0 l.

(** ** Hexadecimal text: [bytes.hex] and [bytes.fromhex] *)

Definition hex_digit (n : Z) : ascii :=
  default "0"%char (String.list_ascii_of_string "0123456789abcdef" !! Z.to_nat n).

(** [bs.hex()]: two lower-case digits per byte. *)
Fixpoint hex (bs : list byte) : string :=
  match bs with
  | [] => EmptyString
  | b :: bs' =>
      String (hex_digit (byte_to_Z b `div` 16))
        (String (hex_digit (byte_to_Z b `mod` 16)) (hex bs'))
  end.

(** The value of a hexadecimal digit of either case. *)
Definition digit_value (c : ascii) : option Z :=
  let n := Z.of_nat (nat_of_ascii c) in
  if bool_decide (48 ≤ n ≤ 57) then Some (n - 48)
  else if bool_decide (97 ≤ n ≤ 102) then Some (n - 87)
  else if bool_decide (65 ≤ n ≤ 70) then Some (n - 55)
  else None.

(** ASCII white space: space, tab, line feed, vertical tab, form feed,
    carriage return. *)
Definition is_space (c : ascii) : bool :=
  let n := Z.of_nat (nat_of_ascii c) in
  bool_decide (n = 32 ∨ 9 ≤ n ≤ 13).

(** [bytes.fromhex(s)]: white space is skipped before a byte; a byte is
    two hexadecimal digits; anything else raises [ValueError]. *)
Fixpoint fromhex (s : string) : result (list byte) :=
  match s with
  | EmptyString => Ok []
  | String c s' =>
      if is_space c then fromhex s'
      else match s' with
           | EmptyString => Raise ValueError
           | String d s'' =>
               match digit_value c, digit_value d with
               | Some top, Some bot =>
                   bs ← fromhex s''; Ok (Z_to_byte (16 * top + bot) :: bs)
               | _, _ => Raise ValueError
               end
           end
  end.

(** ** The sample cache (solve.py, lines 78-106)

    A cache file that is read is taken as the list of rows that
    [csv.reader] yields, a cache file that is written as the list of rows
    that [csv.writer] is given, each row a list of strings; a file that
    cannot be opened is [None].  [csv_read_written] below gives the rows
    that the reader yields from what the writer wrote. *)

Definition row : Type := list string.

(** [nonce = bytes.fromhex(row[0])] *)
Definition read_row_nonce (r : row) : result (list byte) :=
  field ← getitem r 0; fromhex field.

(** [(bytes.fromhex(row[1]), bytes.fromhex(row[2]))] *)
Definition read_row_sample (r : row) : result sample :=
  field ← getitem r 1;
  counter ← fromhex field;
  field ← getitem r 2;
  keystream ← fromhex field;
  Ok (counter, keystream).

(** The loop over the rows inside [try]: an exception ends the loop and
    leaves [nonce] and [samples] as they are at that point. *)
Fixpoint read_rows (nonce : option (list byte)) (samples : list sample)
    (rows : list row) : option (list byte) * list sample :=
  match rows with
  | [] => (nonce, samples)
  | r :: rows' =>
      match read_row_nonce r with
      | Raise _ => (nonce, samples)
      | Ok n =>
          match read_row_sample r with
          | Raise _ => (Some n, samples)
          | Ok s => read_rows (Some n) (samples ++ [s]) rows'
          end
      end
  end.

(** [read_cache(path)]: [nonce = None] and [samples = []] are set before
    the file is opened. *)
Definition read_cache (file : option (list row)) : option (list byte) * list sample :=
  match file with
  | None => (None, [])
  | Some rows => read_rows None [] rows
  end.

(** [write_cache(path, nonce, samples)]: the rows of the file once it
    has been opened for writing.  With [nonce = None] the first
    [nonce.hex()] raises, which the function catches, and the file stays
    empty. *)
Definition write_cache (nonce : option (list byte)) (samples : list sample) : list row :=
  match nonce with
  | Some n => (λ s : sample, [hex n; hex s.1; hex s.2]) <$> samples
  | None => []
  end.

(** [csv.field_size_limit()]: [csv.reader] raises [csv.Error] on a field
    of more characters. *)
Definition csv_field_limit : Z := 131072.

Definition csv_readable (r : row) : bool :=
  forallb (λ field, bool_decide (Z.of_nat (String.length field) ≤ csv_field_limit)) r.

(** The rows that [csv.reader] yields from a file that [csv.writer]
    wrote from rows of hexadecimal fields: the rows as written, up to the
    first row with a field over the limit, where the reader raises and
    [read_cache] stops as it does at the end of the file. *)
Fixpoint csv_read_written (rows : list row) : list row :=
  match rows with
  | [] => []
  | r :: rows' => if csv_readable r then r :: csv_read_written rows' else []
  end.

(** ** Taking samples (solve.py, lines 210-234) *)

Section Sampling.

(** [bytes.fromhex(encrypt(server_url, nonce.hex(), counter, plaintext.hex()))]:
    the answer of the oracle to a nonce, a counter and a plaintext. *)
Variable oracle : list byte → Z → list byte → result (list byte).

(** [secrets.token_bytes(block_size)] as drawn in the iteration of each
    counter. *)
Variable token : Z → list byte.

(** The body of [for counter in range(num_samples)]. *)
Definition take_sample (nonce : list byte) (counter_size counter : Z) : result sample :=
  let plaintext := token counter in
  ciphertext ← oracle nonce counter plaintext;
  let keystream := xor_bytes plaintext ciphertext in
  counter ← to_bytes counter counter_size;
  Ok (counter, keystream).

Definition collect_samples (nonce : list byte) (counter_size num_samples : Z)
    : result (list sample) :=
  mapM (take_sample nonce counter_size) (range num_samples).

(** Lines 210-234 of [attack]: read the cache when one is given, take
    samples under a fresh nonce when none were read, write the cache
    when one is given.  [cache] is [None] without a cache path and
    otherwise the file at the path, which is taken to be writable.  The
    result is the nonce, the samples and the rows of the cache file
    afterwards. *)
Definition gather (cache : option (option (list row))) (fresh_nonce : list byte)
    (counter_size num_samples : Z)
    : result (option (list byte) * list sample * option (list row)) :=
  let '(nonce, samples) :=
    match cache with
    | Some file => read_cache file
    | None => (None, [])
    end in
  '(nonce, samples) ←
    (if bool_decide (samples = []) then
       samples ← collect_samples fresh_nonce counter_size num_samples;
       Ok (Some fresh_nonce, samples)
     else Ok (nonce, samples));
  let file :=
    match cache with
    | Some _ => Some (write_cache nonce samples)
    | None => None
    end in
  Ok (nonce, samples, file).

End Sampling.

(** * Properties *)

(** ** The error monad and Python indexing *)

Lemma bind_Ok_inv {A B} (m : result A) (f : A → result B) (b : B) :
  m ≫= f = Ok b → ∃ a, m = Ok a ∧ f a = Ok b.
Proof. destruct m as [a|e]; simpl; [eauto | discriminate]. Qed.

Lemma bind_Ok_l {A B} (a : A) (f : A → result B) : Ok a ≫= f = f a.
Proof. reflexivity. Qed.

(** Run the monad past a step that is known to succeed. *)
Ltac step_Ok := rewrite bind_Ok_l; cbv beta iota.

Lemma foldlM_app {A B} (f : B → A → result B) (b : B) (l1 l2 : list A) :
  foldlM f b (l1 ++ l2) = foldlM f b l1 ≫= λ b', foldlM f b' l2.
Proof.
  revert b. induction l1 as [|a l1 IH]; intros b; simpl; [done|].
  destruct (f b a) as [b'|e]; simpl; [apply IH | done].
Qed.

Lemma len_nonneg {A} (l : list A) : 0 ≤ len l.
Proof. unfold len. lia. Qed.

Lemma len_app {A} (l1 l2 : list A) : len (l1 ++ l2) = len l1 + len l2.
Proof. unfold len. rewrite length_app. lia. Qed.

Lemma getitem_lookup {A} (l : list A) (i : Z) (x : A) :
  0 ≤ i → l !! Z.to_nat i = Some x → getitem l i = Ok x.
Proof.
  intros Hi Hx. unfold getitem.
  rewrite (bool_decide_eq_false_2 (i < 0)) by lia.
  rewrite bool_decide_eq_false_2 by lia. by rewrite Hx.
Qed.

Lemma getitem_ge {A} (l : list A) (i : Z) :
  len l ≤ i → getitem l i = Raise IndexError.
Proof.
  intros Hi. pose proof (len_nonneg l). unfold getitem.
  rewrite (bool_decide_eq_false_2 (i < 0)) by lia.
  rewrite bool_decide_eq_false_2 by lia.
  rewrite lookup_ge_None_2; [done | unfold len in *; lia].
Qed.

Lemma getitem_Ok_inv {A} (l : list A) (i : Z) (x : A) :
  getitem l i = Ok x → l !! pos l i = Some x.
Proof.
  unfold getitem, pos. cbv zeta.
  repeat case_bool_decide; try discriminate;
    (destruct (l !! _) as [y|]; [by intros [= ->] | discriminate]).
Qed.

Lemma setitem_Ok_inv {A} (l l' : list A) (i : Z) (x : A) :
  setitem l i x = Ok l' → l' = <[pos l i := x]> l.
Proof.
  unfold setitem, pos. cbv zeta.
  repeat case_bool_decide; try discriminate; by intros [= <-].
Qed.

Lemma setitem_lookup {A} (l : list A) (i : Z) (x : A) :
  0 ≤ i < len l → setitem l i x = Ok (<[Z.to_nat i := x]> l).
Proof.
  intros Hi. unfold setitem.
  rewrite (bool_decide_eq_false_2 (i < 0)) by lia.
  rewrite bool_decide_eq_false_2 by lia.
  by rewrite bool_decide_eq_true_2 by lia.
Qed.

Lemma pos_insert {A} (l : list A) (n : nat) (x : A) (i : Z) :
  pos (<[n := x]> l) i = pos l i.
Proof. unfold pos, len. by rewrite length_insert. Qed.

Lemma byte_to_Z_range (b : byte) : 0 ≤ byte_to_Z b < 256.
Proof. unfold byte_to_Z. pose proof (Byte.to_N_bounded b). lia. Qed.

Lemma range_snoc (k : Z) : 0 ≤ k → range (k + 1) = range k ++ [k].
Proof.
  intros Hk. unfold range. rewrite seqZ_app by lia.
  rewrite (seqZ_cons (0 + k) 1) by lia.
  by rewrite (seqZ_nil _ (Z.pred 1)) by lia.
Qed.

Lemma range_app (a b : Z) : 0 ≤ a → 0 ≤ b → range (a + b) = range a ++ seqZ a b.
Proof. intros. unfold range. by rewrite seqZ_app by lia. Qed.

(** Exchanging two slots by two writes rearranges the list. *)
Lemma swap_Permutation {A} (l : list A) (a b : nat) (x y : A) :
  l !! a = Some x → l !! b = Some y →
  <[b := x]> (<[a := y]> l) ≡ₚ l.
Proof.
  intros Ha Hb. apply Permutation_inj. split.
  - by rewrite !length_insert.
  - pose proof (lookup_lt_Some _ _ _ Ha). pose proof (lookup_lt_Some _ _ _ Hb).
    exists (λ k, if decide (k = a) then b else if decide (k = b) then a else k).
    split.
    + intros k1 k2. repeat case_decide; intros; subst; congruence.
    + intros k. rewrite !list_lookup_insert, !length_insert.
      repeat case_decide; destruct_and?; subst; congruence || lia.
Qed.

(** ** The key scheduling replay *)

Lemma ksa_inv_length st : ksa_inv st → length st.1 = 256%nat.
Proof. intros [H _]. rewrite H. unfold range. by rewrite length_seqZ. Qed.

Lemma ksa_inv_init : ksa_inv KSA.init.
Proof. unfold ksa_inv, KSA.init. simpl. split; [done | lia]. Qed.

Lemma run_snoc st i l kb :
  KSASpec.run st i (l ++ [kb]) = KSASpec.step (KSASpec.run st i l) (i + length l) kb.
Proof.
  revert st i. induction l as [|b l IH]; intros st i; simpl.
  - by rewrite Nat.add_0_r.
  - by rewrite IH, Nat.add_succ_comm.
Qed.

Lemma round_Ok known_bytes st (i : nat) kb :
  length st.1 = 256%nat → 0 ≤ st.2 → (i < 256)%nat → known_bytes !! i = Some kb →
  KSA.round known_bytes st (Z.of_nat i) = Ok (KSASpec.step st i kb).
Proof.
  destruct st as [S_ j]. simpl. intros Hlen Hj Hi Hkb.
  pose proof (byte_to_Z_range kb) as Hb.
  set (j' := (j + S_ !!! i + byte_to_Z kb) `mod` 256).
  assert (0 ≤ j' < 256) as Hj' by (apply Z.mod_pos_bound; lia).
  assert (S_ !! i = Some (S_ !!! i)) as HSi
    by (apply list_lookup_lookup_total_lt; lia).
  assert (S_ !! Z.to_nat j' = Some (S_ !!! Z.to_nat j')) as HSj
    by (apply list_lookup_lookup_total_lt; lia).
  unfold KSA.round, KSASpec.step, KSASpec.swap. simpl.
  rewrite (getitem_lookup S_ (Z.of_nat i) (S_ !!! i)) by (rewrite ?Nat2Z.id; first [lia | done]).
  simpl. rewrite (getitem_lookup known_bytes (Z.of_nat i) kb)
    by (rewrite ?Nat2Z.id; first [lia | done]).
  simpl. fold j'. rewrite (getitem_lookup S_ j' (S_ !!! Z.to_nat j')) by (done || lia).
  simpl. rewrite setitem_lookup by (unfold len; lia).
  simpl. rewrite setitem_lookup by (unfold len; rewrite length_insert; lia).
  simpl. by rewrite Nat2Z.id.
Qed.

Lemma round_inv known_bytes st i st' :
  ksa_inv st → KSA.round known_bytes st i = Ok st' → ksa_inv st'.
Proof.
  destruct st as [S_ j]. intros [HS Hj]. unfold KSA.round.
  intros (Si & HSi & H)%bind_Ok_inv.
  apply bind_Ok_inv in H as (kb & _ & H).
  apply bind_Ok_inv in H as (Sj & HSj & H).
  apply bind_Ok_inv in H as (Si' & HSi' & H).
  apply bind_Ok_inv in H as (S1 & HS1 & H).
  apply bind_Ok_inv in H as (S2 & HS2 & H).
  injection H as <-. split; simpl in *.
  - apply setitem_Ok_inv in HS1, HS2. subst S1 S2. rewrite pos_insert.
    rewrite <- HS. apply swap_Permutation; by apply getitem_Ok_inv.
  - apply Z.mod_pos_bound. lia.
Qed.

Lemma rounds_snoc known_bytes k :
  0 ≤ k → KSA.rounds known_bytes (k + 1)
          = KSA.rounds known_bytes k ≫= λ st, KSA.round known_bytes st k.
Proof.
  intros Hk. unfold KSA.rounds. rewrite range_snoc, foldlM_app by done.
  destruct (foldlM _ _ (range k)) as [st|e]; simpl; [|done].
  by destruct (KSA.round known_bytes st k).
Qed.

(** The first [k] rounds succeed while [k] stays within the known bytes
    and within the 256 slots, and agree with the specification. *)
Lemma rounds_Ok known_bytes (k : nat) :
  (k ≤ length known_bytes)%nat → (k ≤ 256)%nat →
  KSA.rounds known_bytes (Z.of_nat k)
  = Ok (KSASpec.run KSA.init 0 (take k known_bytes))
  ∧ ksa_inv (KSASpec.run KSA.init 0 (take k known_bytes)).
Proof.
  induction k as [|k IH]; intros Hk1 Hk2.
  - rewrite take_0. split; [done | apply ksa_inv_init].
  - destruct IH as [IH Hinv]; [lia..|].
    destruct (lookup_lt_is_Some_2 known_bytes k) as [kb Hkb]; [lia|].
    rewrite (take_S_r _ _ _ Hkb), run_snoc, length_take_le by lia. simpl.
    assert (KSA.round known_bytes (KSASpec.run KSA.init 0 (take k known_bytes))
              (Z.of_nat k)
            = Ok (KSASpec.step (KSASpec.run KSA.init 0 (take k known_bytes)) k kb))
      as Hround.
    { apply round_Ok; [by apply ksa_inv_length | apply Hinv | lia | done]. }
    split.
    + replace (Z.of_nat (S k)) with (Z.of_nat k + 1) by lia.
      rewrite rounds_snoc, IH by lia. done.
    + eapply round_inv; eauto.
Qed.

(** Round 257 reads [S[256]]. *)
Lemma rounds_overflow known_bytes (k : Z) :
  256 < k → 256 ≤ len known_bytes → KSA.rounds known_bytes k = Raise IndexError.
Proof.
  intros Hk Hlen. unfold KSA.rounds.
  replace k with (256 + (k - 256)) by lia.
  rewrite range_app, foldlM_app by lia.
  destruct (rounds_Ok known_bytes 256) as [HOk Hinv]; [unfold len in *; lia | lia |].
  unfold KSA.rounds in HOk. change (Z.of_nat 256) with 256 in HOk. rewrite HOk.
  simpl. rewrite seqZ_cons by lia. simpl.
  destruct (KSASpec.run _ _ _) as [S_ j] eqn:E.
  apply ksa_inv_length in Hinv. simpl in Hinv.
  unfold KSA.round. rewrite getitem_ge; [done | unfold len; lia].
Qed.

(** ** The search for [pre_i] *)

Lemma find_pre_i_seqZ (S_ : list Z) (v : Z) (n : nat) (a : Z) :
  0 ≤ a → a + Z.of_nat n ≤ len S_ →
  match find_pre_i S_ v (seqZ a (Z.of_nat n)) with
  | Ok (Some x) =>
      a ≤ x < a + Z.of_nat n ∧ S_ !! Z.to_nat x = Some v
      ∧ ∀ y, a ≤ y < x → S_ !! Z.to_nat y ≠ Some v
  | Ok None => ∀ y, a ≤ y < a + Z.of_nat n → S_ !! Z.to_nat y ≠ Some v
  | Raise _ => False
  end.
Proof.
  revert a. induction n as [|n IH]; intros a Ha Hn.
  - simpl. intros y Hy. lia.
  - rewrite seqZ_cons by lia. simpl.
    destruct (lookup_lt_is_Some_2 S_ (Z.to_nat a)) as [Sa HSa];
      [unfold len in Hn; lia|].
    rewrite (getitem_lookup _ _ _ Ha HSa). simpl.
    case_bool_decide as Hv.
    + subst Sa. split; [lia|]. split; [done|]. intros y Hy. lia.
    + replace (Z.pred (Z.of_nat (S n))) with (Z.of_nat n) by lia.
      specialize (IH (Z.succ a)).
      destruct (find_pre_i S_ v (seqZ (Z.succ a) (Z.of_nat n))) as [[x|]|e].
      * destruct IH as (Hx & HSx & Hmin); [lia..|].
        split; [lia|]. split; [done|]. intros y Hy.
        destruct (decide (y = a)) as [->|]; [congruence | apply Hmin; lia].
      * intros y Hy. destruct (decide (y = a)) as [->|];
          [congruence | apply IH; lia].
      * apply IH; lia.
Qed.

(** On a permutation of [0..255] the search finds the only slot that
    holds the value. *)
Lemma find_pre_i_permutation (S_ : list Z) (v : Z) :
  S_ ≡ₚ range 256 → 0 ≤ v < 256 →
  ∃ x, find_pre_i S_ v (range 256) = Ok (Some x) ∧ least_index S_ v x
       ∧ ∀ y : nat, S_ !! y = Some v ↔ y = Z.to_nat x.
Proof.
  intros HS Hv.
  assert (length S_ = 256%nat) as Hlen
    by (rewrite HS; unfold range; by rewrite length_seqZ).
  assert (NoDup S_) as Hnd by (rewrite HS; apply NoDup_seqZ).
  assert (v ∈ S_) as Hin by (rewrite HS; apply elem_of_seqZ; lia).
  apply list_elem_of_lookup in Hin as [m Hm].
  pose proof (find_pre_i_seqZ S_ v 256 0) as H.
  change (seqZ 0 (Z.of_nat 256)) with (range 256) in H.
  pose proof (lookup_lt_Some _ _ _ Hm) as Hlt.
  destruct (find_pre_i S_ v (range 256)) as [[x|]|e].
  - destruct H as (Hx & HSx & Hmin); [lia | unfold len; lia |].
    exists x. split; [done|]. split.
    + split; [done|]. split; [lia|]. intros y Hy. apply Hmin. lia.
    + intros y. split; [|by intros ->].
      intros Hy. eapply NoDup_lookup; eauto.
  - exfalso. apply (H ltac:(lia) ltac:(unfold len; lia) (Z.of_nat m)); [lia|].
    by rewrite Nat2Z.id.
  - exfalso. apply H; [lia | unfold len; lia].
Qed.

(** C5: after each of the rounds that the replay performs on a known-byte
    prefix (the first [k] rounds, for every [k] up to the length of the
    prefix and the 256 slots) the list [S] is a permutation of [0..255]
    and [j] is in [0..255]; on such a list the search for the slot that
    holds a value of [0..255] ends at the one index with that value. *)
Theorem ksa_permutation (known_bytes : list byte) (k : Z) :
  0 ≤ k ≤ len known_bytes → k ≤ 256 →
  ∃ S_ j, KSA.rounds known_bytes k = Ok (S_, j)
    ∧ S_ ≡ₚ range 256 ∧ 0 ≤ j < 256
    ∧ ∀ v, 0 ≤ v < 256 →
        ∃ x, find_pre_i S_ v (range 256) = Ok (Some x) ∧ 0 ≤ x < 256
             ∧ ∀ y : nat, S_ !! y = Some v ↔ y = Z.to_nat x.
Proof.
  intros Hk Hk'.
  destruct (rounds_Ok known_bytes (Z.to_nat k)) as [HOk [Hperm Hj]];
    [unfold len in Hk; lia | lia |].
  rewrite Z2Nat.id in HOk by lia.
  destruct (KSASpec.run _ _ _) as [S_ j]. simpl in *.
  exists S_, j. repeat split; try done; try lia.
  intros v Hv.
  destruct (find_pre_i_permutation S_ v Hperm Hv) as (x & Hx & (_ & Hr & _) & Hu).
  eauto 10.
Qed.

Lemma ksa_permutation_witness :
  ∃ S_ j, KSA.rounds [Byte.x01; Byte.x02; Byte.x03] 2 = Ok (S_, j)
    ∧ S_ ≡ₚ range 256 ∧ 0 ≤ j < 256
    ∧ ∀ v, 0 ≤ v < 256 →
        ∃ x, find_pre_i S_ v (range 256) = Ok (Some x) ∧ 0 ≤ x < 256
             ∧ ∀ y : nat, S_ !! y = Some v ↔ y = Z.to_nat x.
Proof.
  apply (ksa_permutation [Byte.x01; Byte.x02; Byte.x03] 2);
    [unfold len; simpl; lia | lia].
Defined.

(** C2, as amended: for every byte sequence of at most 256 bytes the
    replay starts from [S[i] = i] for [i] in [0..255] and [j = 0], and
    returns the state after exactly one round per known byte, each round
    setting [j = (j + S[i] + known_bytes[i]) mod 256] and exchanging
    [S[i]] and [S[j]]; on the empty sequence it returns the identity
    permutation with [j = 0]. *)
Theorem ksa_simulate_rounds (known_bytes : list byte) :
  len known_bytes ≤ 256 →
  (∀ i, 0 ≤ i < 256 → getitem KSA.init.1 i = Ok i) ∧ KSA.init.2 = 0
  ∧ KSA.simulate known_bytes = Ok (KSASpec.simulate_ksa known_bytes)
  ∧ KSA.simulate [] = Ok (range 256, 0).
Proof.
  intros Hlen. split; [|split; [done|split; [|done]]].
  - intros i Hi. apply getitem_lookup; [lia|].
    unfold KSA.init, range. simpl. rewrite lookup_seqZ. lia.
  - unfold KSA.simulate, len in *.
    destruct (rounds_Ok known_bytes (length known_bytes)) as [HOk _]; [lia..|].
    by rewrite firstn_all in HOk.
Qed.

Lemma ksa_simulate_rounds_witness :
  (∀ i, 0 ≤ i < 256 → getitem KSA.init.1 i = Ok i) ∧ KSA.init.2 = 0
  ∧ KSA.simulate [Byte.x01; Byte.x02; Byte.x03]
    = Ok (KSASpec.simulate_ksa [Byte.x01; Byte.x02; Byte.x03])
  ∧ KSA.simulate [] = Ok (range 256, 0).
Proof.
  apply (ksa_simulate_rounds [Byte.x01; Byte.x02; Byte.x03]).
  unfold len; simpl; lia.
Defined.

(** C2 as stated fails on a sequence of 257 bytes: round 257 reads
    [S[256]] and the replay ends in [IndexError] instead of a state. *)
Lemma ksa_simulate_257 :
  KSA.simulate (replicate 257 Byte.x00) = Raise IndexError
  ∧ KSA.simulate (replicate 257 Byte.x00)
    ≠ Ok (KSASpec.simulate_ksa (replicate 257 Byte.x00)).
Proof.
  assert (KSA.simulate (replicate 257 Byte.x00) = Raise IndexError) as H
    by (vm_compute; reflexivity).
  split; [done | by rewrite H].
Qed.

(** ** The candidate of one sample *)

Lemma getitem_is_Ok {A} (l : list A) (i : Z) :
  - len l ≤ i < len l → is_Ok (getitem l i).
Proof.
  intros Hi. unfold getitem. cbv zeta.
  destruct (decide (i < 0)).
  - rewrite (bool_decide_eq_true_2 (i < 0)) by done. cbv iota.
    rewrite bool_decide_eq_false_2 by lia.
    destruct (lookup_lt_is_Some_2 l (Z.to_nat (i + len l))) as [x Hx];
      [unfold len in *; lia|].
    rewrite Hx. by exists x.
  - rewrite (bool_decide_eq_false_2 (i < 0)) by done. cbv iota.
    rewrite bool_decide_eq_false_2 by lia.
    destruct (lookup_lt_is_Some_2 l (Z.to_nat i)) as [x Hx];
      [unfold len in *; lia|].
    rewrite Hx. by exists x.
Qed.

Lemma mapM_Forall2 {A B} (f : A → result B) (P : A → Prop) (Q : A → B → Prop) l :
  (∀ a, P a → ∃ b, f a = Ok b ∧ Q a b) →
  Forall P l → ∃ bs, mapM f l = Ok bs ∧ Forall2 Q l bs.
Proof.
  intros Hf. induction 1 as [|a l Ha _ (bs & Hbs & HQ)]; simpl.
  - exists []. by split.
  - destruct (Hf a Ha) as (b & -> & Hb). simpl. rewrite Hbs. simpl.
    exists (b :: bs). split; [done | by constructor].
Qed.

Lemma simulate_Ok (known_bytes : list byte) :
  len known_bytes ≤ 256 →
  ∃ st, KSA.simulate known_bytes = Ok st ∧ ksa_inv st.
Proof.
  intros Hlen. unfold KSA.simulate, len in *.
  destruct (rounds_Ok known_bytes (length known_bytes)) as [HOk Hinv]; [lia..|].
  eauto.
Qed.

Lemma candidate_key_byte_spec (nonce key : list byte) (s : sample) :
  well_formed_sample nonce key s →
  ∃ c, candidate_key_byte nonce key s = Ok c
       ∧ candidate_spec nonce key s c ∧ 0 ≤ c < 256.
Proof.
  destruct s as [counter keystream].
  unfold well_formed_sample, candidate_spec, candidate_key_byte. cbn [fst snd].
  set (known_bytes := nonce ++ counter ++ key).
  intros (Hn & Hks & Hne).
  pose proof (len_nonneg known_bytes) as Hn0.
  destruct (simulate_Ok known_bytes) as ([S_ j] & -> & Hperm & Hj); [lia|].
  step_Ok. unfold ksa_inv in *. cbn [fst snd] in *.
  assert (0 < len keystream) as Hks0
    by (destruct keystream; [done | unfold len; simpl; lia]).
  destruct (getitem_is_Ok keystream (len known_bytes - 1)) as [ob Hob]; [lia|].
  rewrite Hob. step_Ok.
  set (next_S_i := (len known_bytes - byte_to_Z ob) `mod` 256).
  assert (0 ≤ next_S_i < 256) as Hnext by (apply Z.mod_pos_bound; lia).
  destruct (find_pre_i_permutation S_ next_S_i Hperm Hnext)
    as (pre_i & -> & Hleast & _).
  step_Ok. unfold sub_pre_i. step_Ok.
  assert (length S_ = 256%nat) as HlenS
    by (rewrite Hperm; unfold range; by rewrite length_seqZ).
  destruct (getitem_is_Ok S_ (len known_bytes)) as [Sn HSn];
    [unfold len in *; lia|].
  rewrite HSn. step_Ok.
  exists ((pre_i - j - Sn) `mod` 256). split; [done|]. split.
  - exists S_, j, ob, pre_i, Sn. by split_and!.
  - apply Z.mod_pos_bound. lia.
Qed.

(** C1: in a round over well-formed samples no sample fails, and the
    value appended to the candidate list for each sample is
    [(pre_i - j - S[num_known_bytes]) mod 256], a value in [0..255],
    where [(S, j)] is the replayed state over the known-byte prefix,
    [output_byte = keystream[num_known_bytes - 1]] and [pre_i] is the
    smallest index in [0..255] with
    [S[pre_i] == (num_known_bytes - output_byte) mod 256]. *)
Theorem candidate_key_bytes_spec (nonce key : list byte) (samples : list sample) :
  Forall (well_formed_sample nonce key) samples →
  ∃ candidates,
    candidate_key_bytes nonce key samples = Ok candidates
    ∧ Forall2 (candidate_spec nonce key) samples candidates
    ∧ Forall (λ c, 0 ≤ c < 256) candidates.
Proof.
  intros Hwf.
  destruct (mapM_Forall2 (candidate_key_byte nonce key)
              (well_formed_sample nonce key)
              (λ s c, candidate_spec nonce key s c ∧ 0 ≤ c < 256) samples)
    as (cs & Hcs & H2); [apply candidate_key_byte_spec | done |].
  exists cs. split; [done|]. split.
  - eapply Forall2_impl; [exact H2 | by intros ?? [? _]].
  - eapply Forall2_Forall_r; [exact H2|].
    apply Forall_forall. by intros ??? [_ ?].
Qed.

Lemma candidate_key_bytes_spec_witness :
  ∃ candidates,
    candidate_key_bytes [Byte.x01; Byte.x02; Byte.x03] []
      [([Byte.x00], [Byte.x09; Byte.x08; Byte.x07; Byte.x06; Byte.x05])]
    = Ok candidates
    ∧ Forall2 (candidate_spec [Byte.x01; Byte.x02; Byte.x03] [])
        [([Byte.x00], [Byte.x09; Byte.x08; Byte.x07; Byte.x06; Byte.x05])]
        candidates
    ∧ Forall (λ c, 0 ≤ c < 256) candidates.
Proof.
  apply (candidate_key_bytes_spec [Byte.x01; Byte.x02; Byte.x03] []
           [([Byte.x00], [Byte.x09; Byte.x08; Byte.x07; Byte.x06; Byte.x05])]).
  repeat constructor; unfold len; simpl; (lia || discriminate).
Defined.

(** The candidate of the sample of [Scenario] in the first round, and of
    a sample under an empty known-byte prefix, where
    [keystream[num_known_bytes - 1]] is the last byte of the keystream. *)
Example candidate_key_byte_first_round :
  candidate_key_byte Scenario.nonce [] ([Byte.x00], Scenario.keystream) = Ok 58.
Proof. vm_compute. reflexivity. Qed.

Example candidate_key_byte_empty_prefix :
  candidate_key_byte [] [] ([], [Byte.x05; Byte.x09]) = Ok 247.
Proof. vm_compute. reflexivity. Qed.

(** ** The majority selector *)

Lemma tally_cons (a : Z) (l : list Z) (x : Z) :
  tally (a :: l) x = (if decide (a = x) then 1 else 0) + tally l x.
Proof.
  unfold tally. simpl. destruct (Z.eq_dec a x); case_decide; try done; lia.
Qed.

Lemma tally_nonneg (l : list Z) (x : Z) : 0 ≤ tally l x.
Proof. unfold tally. lia. Qed.

Lemma tally_not_elem (l : list Z) (x : Z) : x ∉ l → tally l x = 0.
Proof.
  intros Hx. unfold tally.
  rewrite (proj1 (count_occ_not_In Z.eq_dec l x)); [done|].
  by rewrite <- list_elem_of_In.
Qed.

Lemma zero_counts_lookup (xs : list Z) (x : Z) :
  zero_counts xs !! x = if decide (x ∈ xs) then Some 0 else None.
Proof.
  unfold zero_counts.
  assert (∀ m : gmap Z Z,
    foldl (λ counts y, <[y := 0]> counts) m xs !! x
    = if decide (x ∈ xs) then Some 0 else m !! x) as H.
  { induction xs as [|a xs IH]; intros m; cbn [foldl].
    - case_decide as Hx; [by apply elem_of_nil in Hx | done].
    - rewrite IH. destruct (decide (x ∈ xs)) as [Hin|Hnin].
      + by rewrite decide_True by (by apply list_elem_of_further).
      + destruct (decide (x = a)) as [->|Hne].
        * rewrite lookup_insert_eq.
          by rewrite decide_True by apply list_elem_of_here.
        * rewrite lookup_insert_ne by done.
          rewrite decide_False; [done|]. by intros [?|?]%elem_of_cons. }
  rewrite H. by rewrite lookup_empty.
Qed.

Lemma count_loop (l : list Z) (m : gmap Z Z) :
  (∀ x, x ∈ l → is_Some (m !! x)) →
  ∃ m', foldlM increment m l = Ok m'
        ∧ ∀ x, m' !! x = (λ c, c + tally l x) <$> m !! x.
Proof.
  revert m. induction l as [|a l IH]; intros m Hdom; cbn [foldlM].
  - exists m. split; [done|]. intros x. unfold tally. simpl.
    destruct (m !! x); simpl; [f_equal; lia | done].
  - destruct (Hdom a) as [c Hc]; [apply list_elem_of_here|].
    assert (increment m a = Ok (<[a := c + 1]> m)) as ->
      by (unfold increment; by rewrite Hc).
    step_Ok.
    destruct (IH (<[a := c + 1]> m)) as (m' & -> & Hm').
    { intros x Hx. destruct (decide (a = x)) as [->|];
        [by rewrite lookup_insert_eq | rewrite lookup_insert_ne by done].
      apply Hdom. by apply list_elem_of_further. }
    exists m'. split; [done|]. intros x. rewrite Hm', tally_cons.
    destruct (decide (a = x)) as [->|].
    + rewrite lookup_insert_eq, Hc. simpl. f_equal. lia.
    + rewrite lookup_insert_ne by done. by destruct (m !! x).
Qed.

Lemma count_elements_spec (xs : list Z) :
  ∃ counts, count_elements xs = Ok counts
    ∧ ∀ x, counts !! x = if decide (x ∈ xs) then Some (tally xs x) else None.
Proof.
  destruct (count_loop xs (zero_counts xs)) as (m & Hm & Hl).
  { intros x Hx. rewrite zero_counts_lookup, decide_True by done. eauto. }
  exists m. split; [done|]. intros x.
  rewrite Hl, zero_counts_lookup. by case_decide.
Qed.

Lemma max_scan_first_max (key : Z → option Z) (f : Z → Z) (xs pre : list Z) (best : Z) :
  (∀ x, x ∈ pre ++ xs → key x = Some (f x)) →
  first_max f pre best →
  ∃ v, max_scan key best (key best) xs = Ok v ∧ first_max f (pre ++ xs) v.
Proof.
  revert pre best. induction xs as [|x xs IH]; intros pre best Hkey Hbest.
  - exists best. by rewrite app_nil_r.
  - destruct Hbest as (i & Hi & Hmax & Hfirst).
    assert (best ∈ pre) as Hin by (apply list_elem_of_lookup; eauto).
    cbn [max_scan].
    assert (gt_key (key x) (key best) = Ok (bool_decide (f best < f x))) as ->
      by (by rewrite (Hkey best), (Hkey x) by set_solver).
    step_Ok.
    rewrite (cons_middle x pre xs), app_assoc in Hkey |- *.
    case_bool_decide as Hgt.
    + apply IH; [done|]. exists (length pre). split_and!.
      * by rewrite lookup_app_r, Nat.sub_diag by lia.
      * intros y [Hy| ->%list_elem_of_singleton]%elem_of_app; [|lia].
        specialize (Hmax y Hy). lia.
      * intros i' y Hi' Hy. rewrite lookup_app_l in Hy by done.
        assert (y ∈ pre) as Hy' by (apply list_elem_of_lookup; eauto).
        specialize (Hmax y Hy'). lia.
    + apply IH; [done|]. exists i. split_and!.
      * by apply lookup_app_l_Some.
      * intros y [Hy| ->%list_elem_of_singleton]%elem_of_app; [auto | lia].
      * intros i' y Hi' Hy. apply (Hfirst i' y Hi').
        pose proof (lookup_lt_Some _ _ _ Hi).
        by rewrite lookup_app_l in Hy by lia.
Qed.

(** The selector returns the first value of maximal tally. *)
Lemma most_common_element_first_max (xs : list Z) :
  xs ≠ [] →
  ∃ v, most_common_element xs = Ok v ∧ first_max (tally xs) xs v.
Proof.
  intros Hne. unfold most_common_element.
  destruct (count_elements_spec xs) as (counts & -> & Hcounts). step_Ok.
  destruct xs as [|x0 xs']; [done|]. unfold max_by.
  apply (max_scan_first_max (λ x, counts !! x) (tally (x0 :: xs')) xs' [x0] x0).
  - intros x Hx. by rewrite Hcounts, decide_True.
  - exists 0%nat. split_and!; [done | | lia].
    by intros y ->%list_elem_of_singleton.
Qed.

(** C4: on a non-empty candidate sequence the majority selector returns
    a value that occurs in the sequence and whose tally is at least the
    tally of every value; when one value has the strictly highest count
    it is the value returned; and a sequence of integers in [0..255]
    gives a result in [0..255].  The selector is a function of the
    sequence alone, so equal sequences give equal results. *)
Theorem most_common_element_majority (xs : list Z) :
  xs ≠ [] →
  ∃ v, most_common_element xs = Ok v
    ∧ v ∈ xs
    ∧ (∀ y, tally xs y ≤ tally xs v)
    ∧ (∀ m, (∀ y, y ≠ m → tally xs y < tally xs m) → v = m)
    ∧ (Forall (λ x, 0 ≤ x < 256) xs → 0 ≤ v < 256).
Proof.
  intros Hne.
  destruct (most_common_element_first_max xs Hne) as (v & Hv & i & Hi & Hmax & _).
  assert (v ∈ xs) as Hin by (apply list_elem_of_lookup; eauto).
  assert (∀ y, tally xs y ≤ tally xs v) as Hall.
  { intros y. destruct (decide (y ∈ xs)) as [Hy|Hy]; [by apply Hmax|].
    rewrite (tally_not_elem xs y Hy). apply tally_nonneg. }
  exists v. split_and!; try done.
  - intros m Hm. destruct (decide (v = m)) as [|Hvm]; [done|].
    specialize (Hm v Hvm). specialize (Hall m). lia.
  - intros Hrange. by apply (proj1 (Forall_forall _ _) Hrange).
Qed.

Lemma most_common_element_majority_witness :
  ∃ v, most_common_element [7; 3; 7; 200] = Ok v
    ∧ v ∈ [7; 3; 7; 200]
    ∧ (∀ y, tally [7; 3; 7; 200] y ≤ tally [7; 3; 7; 200] v)
    ∧ (∀ m, (∀ y, y ≠ m → tally [7; 3; 7; 200] y < tally [7; 3; 7; 200] m) → v = m)
    ∧ (Forall (λ x, 0 ≤ x < 256) [7; 3; 7; 200] → 0 ≤ v < 256).
Proof. apply (most_common_element_majority [7; 3; 7; 200]). discriminate. Defined.

(** C10: among the values that share the maximal tally the selector
    returns the one that occurs first in the sequence: the value returned
    stands at a position [i], its tally is maximal, and every value whose
    tally is as large occurs only at position [i] or later. *)
Theorem most_common_element_first_occurrence (xs : list Z) :
  xs ≠ [] →
  ∃ v (i : nat), most_common_element xs = Ok v
    ∧ xs !! i = Some v
    ∧ (∀ y, tally xs y ≤ tally xs v)
    ∧ (∀ (k : nat) y, xs !! k = Some y → tally xs v ≤ tally xs y → (i ≤ k)%nat).
Proof.
  intros Hne.
  destruct (most_common_element_first_max xs Hne)
    as (v & Hv & i & Hi & Hmax & Hfirst).
  exists v, i. split_and!; try done.
  - intros y. destruct (decide (y ∈ xs)) as [Hy|Hy]; [by apply Hmax|].
    rewrite (tally_not_elem xs y Hy). apply tally_nonneg.
  - intros k y Hk Hy. destruct (decide (i ≤ k)%nat) as [|Hlt]; [done|].
    specialize (Hfirst k y ltac:(lia) Hk). lia.
Qed.

Lemma most_common_element_first_occurrence_witness :
  ∃ v (i : nat), most_common_element [5; 3; 3; 5] = Ok v
    ∧ [5; 3; 3; 5] !! i = Some v
    ∧ (∀ y, tally [5; 3; 3; 5] y ≤ tally [5; 3; 3; 5] v)
    ∧ (∀ (k : nat) y, [5; 3; 3; 5] !! k = Some y →
         tally [5; 3; 3; 5] v ≤ tally [5; 3; 3; 5] y → (i ≤ k)%nat).
Proof. apply (most_common_element_first_occurrence [5; 3; 3; 5]). discriminate. Defined.

(** On a tie the earlier value wins over the numerically lower one. *)
Example most_common_element_tie :
  most_common_element [5; 3; 3; 5] = Ok 5
  ∧ tally [5; 3; 3; 5] 3 = tally [5; 3; 3; 5] 5.
Proof. split; vm_compute; reflexivity. Qed.

(** The selector fails on an empty candidate list. *)
Example most_common_element_nil : most_common_element [] = Raise ValueError.
Proof. reflexivity. Qed.

(** ** Little-endian counters *)

Lemma byte_to_Z_to_byte (z : Z) : byte_to_Z (Z_to_byte z) = z `mod` 256.
Proof.
  unfold Z_to_byte, byte_to_Z.
  pose proof (Z.mod_pos_bound z 256 ltac:(lia)) as Hz.
  destruct (Byte.of_N (Z.to_N (z `mod` 256))) as [b|] eqn:E; simpl.
  - apply Byte.to_of_N in E. lia.
  - apply Byte.of_N_None_iff in E. lia.
Qed.

Lemma Z_to_byte_to_Z (b : byte) : Z_to_byte (byte_to_Z b) = b.
Proof.
  pose proof (byte_to_Z_range b) as Hb. unfold Z_to_byte.
  rewrite Z.mod_small by done. unfold byte_to_Z.
  by rewrite N2Z.id, Byte.of_to_N.
Qed.

Lemma length_le_digits (k : nat) (n : Z) : length (le_digits k n) = k.
Proof. revert n. induction k as [|k IH]; intros n; simpl; [done | by rewrite IH]. Qed.

Lemma le_int_range (bs : list byte) : 0 ≤ le_int bs < 256 ^ len bs.
Proof.
  induction bs as [|b bs IH]; simpl; [unfold len; simpl; lia|].
  pose proof (byte_to_Z_range b).
  replace (len (b :: bs)) with (len bs + 1) by (unfold len; simpl; lia).
  rewrite Z.pow_add_r by (pose proof (len_nonneg bs); lia). lia.
Qed.

Lemma le_int_digits (k : nat) (n : Z) :
  0 ≤ n < 256 ^ Z.of_nat k → le_int (le_digits k n) = n.
Proof.
  revert n. induction k as [|k IH]; intros n Hn; simpl.
  - simpl in Hn. lia.
  - rewrite byte_to_Z_to_byte, IH.
    + pose proof (Z.div_mod n 256 ltac:(lia)). lia.
    + rewrite Nat2Z.inj_succ, Z.pow_succ_r in Hn by lia.
      split; [apply Z.div_pos; lia | apply Z.div_lt_upper_bound; lia].
Qed.

Lemma le_digits_int (bs : list byte) : le_digits (length bs) (le_int bs) = bs.
Proof.
  induction bs as [|b bs IH]; simpl; [done|].
  pose proof (byte_to_Z_range b) as Hb.
  rewrite (Z.mul_comm 256).
  assert (Z_to_byte (byte_to_Z b + le_int bs * 256) = b) as ->.
  { rewrite <- (Z_to_byte_to_Z b) at 2. unfold Z_to_byte.
    by rewrite Z_mod_plus_full. }
  f_equal. rewrite Z_div_plus_full, Z.div_small by lia. simpl. apply IH.
Qed.

(** [to_bytes] succeeds exactly with the little-endian encoding of the
    requested length. *)
Lemma to_bytes_Ok_iff (n length : Z) (bs : list byte) :
  to_bytes n length = Ok bs ↔ len bs = length ∧ le_int bs = n.
Proof.
  unfold to_bytes. split.
  - repeat case_bool_decide; try discriminate. intros [= <-].
    unfold len. rewrite length_le_digits. split; [lia|].
    apply le_int_digits. rewrite Z2Nat.id by lia. lia.
  - intros [<- <-]. pose proof (le_int_range bs). pose proof (len_nonneg bs).
    rewrite !bool_decide_eq_false_2 by lia.
    unfold len. by rewrite Nat2Z.id, le_digits_int.
Qed.

(** ** The verifier *)

Section Verifier.

Variable arc4_update : list byte → list byte → result (list byte).

(** C6: [test_key] returns [True] exactly when the counter has an
    unsigned little-endian encoding of [counter_size] bytes and the
    cipher keyed by nonce ‖ that encoding ‖ candidate key turns the
    test plaintext into a ciphertext equal to the expected one; on
    every other input, an internal failure included, it returns
    [False]. *)
Theorem test_key_true_iff (nonce : list byte) (counter counter_size : Z)
    (key plaintext expected_ciphertext : list byte) :
  test_key arc4_update nonce counter counter_size key plaintext expected_ciphertext
    = true
  ↔ ∃ counter_bytes ciphertext,
      len counter_bytes = counter_size ∧ le_int counter_bytes = counter
      ∧ arc4_update (nonce ++ counter_bytes ++ key) plaintext = Ok ciphertext
      ∧ ciphertext = expected_ciphertext.
Proof.
  unfold test_key, test_key_try. split.
  - destruct (to_bytes counter counter_size) as [cb|e] eqn:Hcb; [|discriminate].
    step_Ok. apply to_bytes_Ok_iff in Hcb as [Hlen Hval].
    destruct (arc4_update _ _) as [ct|e] eqn:Hct; [|discriminate].
    step_Ok. intros Heq%bool_decide_eq_true. exists cb, ct. by split_and!.
  - intros (cb & ct & Hlen & Hval & Hct & <-).
    rewrite (proj2 (to_bytes_Ok_iff counter counter_size cb)) by done.
    step_Ok. rewrite Hct. step_Ok. by apply bool_decide_eq_true.
Qed.

(** C7: [test_key] always returns a boolean, and whenever the body of
    its [try] block raises, whatever the exception, the value returned
    is [False]. *)
Theorem test_key_never_raises (nonce : list byte) (counter counter_size : Z)
    (key plaintext expected_ciphertext : list byte) (e : exn) :
  test_key_try arc4_update nonce counter counter_size key plaintext
    expected_ciphertext = Raise e →
  test_key arc4_update nonce counter counter_size key plaintext
    expected_ciphertext = false.
Proof. intros H. unfold test_key. by rewrite H. Qed.

End Verifier.

Lemma test_key_never_raises_witness :
  test_key ARC4.update [Byte.x01] (-1) 3 [Byte.x41] [Byte.x00] [Byte.x00] = false.
Proof.
  apply (test_key_never_raises ARC4.update [Byte.x01] (-1) 3 [Byte.x41]
           [Byte.x00] [Byte.x00] OverflowError).
  reflexivity.
Defined.

(** The verifier on a key of a size the cipher rejects, and with a
    counter that does not fit [counter_size] bytes. *)
Example test_key_rejected_size :
  test_key_try ARC4.update (replicate 16 Byte.x00) 0 3 [] [Byte.x00] [Byte.x00]
    = Raise ValueError
  ∧ test_key ARC4.update (replicate 16 Byte.x00) 0 3 [] [Byte.x00] [Byte.x00]
    = false.
Proof. split; vm_compute; reflexivity. Qed.

Example test_key_counter_overflow :
  test_key_try ARC4.update [] 1000 1 [] [] [] = Raise OverflowError
  ∧ test_key ARC4.update [] 1000 1 [] [] [] = false.
Proof. split; vm_compute; reflexivity. Qed.

(** ** The recovery loop *)

Lemma bytes_of_int_Ok_inv (v : Z) (bs : list byte) :
  bytes_of_int v = Ok bs → ∃ b, bs = [b] ∧ byte_to_Z b = v.
Proof.
  unfold bytes_of_int. case_bool_decide as Hv; [|discriminate].
  destruct (Byte.of_N (Z.to_N v)) as [b|] eqn:E; [|discriminate].
  intros [= <-]. exists b. split; [done|].
  apply Byte.to_of_N in E. unfold byte_to_Z. lia.
Qed.

Lemma recover_byte_Ok_inv (nonce : list byte) (samples : list sample)
    (key key' : list byte) :
  recover_byte nonce samples key = Ok key' →
  ∃ candidates chosen b,
    candidate_key_bytes nonce key samples = Ok candidates
    ∧ most_common_element candidates = Ok chosen
    ∧ byte_to_Z b = chosen ∧ key' = key ++ [b].
Proof.
  unfold recover_byte. intros (cs & Hcs & H)%bind_Ok_inv.
  apply bind_Ok_inv in H as (chosen & Hchosen & H).
  apply bind_Ok_inv in H as (bs & Hbs & [= <-]).
  apply bytes_of_int_Ok_inv in Hbs as (b & -> & Hb).
  by exists cs, chosen, b.
Qed.

Lemma mapM_Raise {A B} (f : A → result B) (l : list A) (a : A) (e : exn) :
  a ∈ l → f a = Raise e → ∃ e', mapM f l = Raise e'.
Proof.
  intros Ha Hfa. induction l as [|x l IH]; [by apply elem_of_nil in Ha|].
  cbn [mapM]. destruct (f x) as [b|e1] eqn:Hfx; [|by exists e1].
  step_Ok. apply elem_of_cons in Ha as [->|Ha]; [congruence|].
  destruct (IH Ha) as [e' ->]. by exists e'.
Qed.

(** A known-byte prefix of 256 bytes or more makes the step of a sample
    raise: the replay stops at [S[256]], or the candidate formula does. *)
Lemma candidate_key_byte_overflow (nonce key : list byte) (s : sample) :
  256 ≤ len (nonce ++ s.1 ++ key) →
  ∃ e, candidate_key_byte nonce key s = Raise e.
Proof.
  destruct s as [counter keystream]. unfold candidate_key_byte. cbn [fst snd].
  set (known_bytes := nonce ++ counter ++ key). intros Hn.
  destruct (decide (len known_bytes = 256)) as [H256|Hne].
  - destruct (simulate_Ok known_bytes) as ([S_ j] & -> & Hperm & Hj); [lia|].
    step_Ok. cbn [fst snd] in *.
    destruct (getitem keystream _) as [ob|e]; [|by exists e]. step_Ok.
    destruct (find_pre_i S_ _ _) as [pre_i|e]; [|by exists e]. step_Ok.
    destruct (sub_pre_i pre_i j) as [d|e]; [|by exists e]. step_Ok.
    rewrite getitem_ge; [by exists IndexError|].
    rewrite H256. unfold len. rewrite Hperm. unfold range.
    rewrite length_seqZ. lia.
  - unfold KSA.simulate. rewrite rounds_overflow by lia. by exists IndexError.
Qed.



Section Driver.

Variable arc4_update : list byte → list byte → result (list byte).
Variable tv : test_vector.
Variable counter_size : Z.
Variable nonce : list byte.
Variable samples : list sample.

Local Abbreviation step := (loop_step arc4_update tv counter_size nonce samples).
Local Abbreviation steps := (loop_steps arc4_update tv counter_size nonce samples).
Local Abbreviation run := (recover arc4_update tv counter_size nonce samples).

Lemma loop_step_append (key key' : list byte) :
  step key key' → ∃ b, key' = key ++ [b].
Proof.
  intros [_ H]. apply recover_byte_Ok_inv in H as (_ & _ & b & _ & _ & _ & ->).
  by exists b.
Qed.

Lemma loop_steps_append (r : nat) (key key' : list byte) :
  steps r key key' → ∃ ext, key' = key ++ ext ∧ length ext = r.
Proof.
  induction 1 as [key|r key key1 key2 Hstep _ (ext & -> & Hext)].
  - exists []. by rewrite app_nil_r.
  - apply loop_step_append in Hstep as [b ->].
    exists (b :: ext). rewrite <- app_assoc. simpl. by rewrite Hext.
Qed.





(** The loop stops with the current key as soon as the verifier accepts
    it. *)
Lemma recover_verified (fuel : nat) (key : list byte) :
  verified arc4_update tv counter_size key = true →
  run (S fuel) key = Verified key.
Proof. intros H. cbn [recover]. by rewrite H. Qed.

(** The loop cannot run for ever: the key grows by one byte per round,
    and a round on a known-byte prefix of 256 bytes raises, as does a
    round without samples. *)
Lemma recover_ends (d : nat) (key : list byte) :
  (256 ≤ length key + d)%nat →
  ∀ key', run (S d) key ≠ Running key'.
Proof.
  revert key. induction d as [|d IH]; intros key Hlen key'; cbn [recover].
  - destruct (verified _ _ _ _); [done|].
    destruct (recover_byte nonce samples key) as [k|e] eqn:Hk; [|done].
    exfalso. apply recover_byte_Ok_inv in Hk as (cs & chosen & _ & Hcs & Hch & _).
    destruct samples as [|s rest].
    + injection Hcs as <-. discriminate.
    + destruct (candidate_key_byte_overflow nonce key s) as [e He].
      { rewrite !len_app. pose proof (len_nonneg nonce).
        pose proof (len_nonneg s.1). unfold len in *. lia. }
      unfold candidate_key_bytes in Hcs. cbn [mapM] in Hcs.
      rewrite He in Hcs. discriminate.
  - destruct (verified _ _ _ _); [done|].
    destruct (recover_byte nonce samples key) as [k|e] eqn:Hk; [|done].
    apply recover_byte_Ok_inv in Hk as (_ & _ & b & _ & _ & _ & ->).
    apply IH. rewrite length_app. simpl. lia.
Qed.

Lemma recover_fuel_mono (n m : nat) (key : list byte) :
  (n ≤ m)%nat → (∀ key', run n key ≠ Running key') → run m key = run n key.
Proof.
  revert m key. induction n as [|n IH]; intros m key Hnm Hn.
  - by destruct (Hn key).
  - destruct m as [|m]; [lia|]. cbn [recover] in *.
    destruct (verified _ _ _ _); [done|].
    destruct (recover_byte nonce samples key) as [k|e]; [|done].
    apply IH; [lia | done].
Qed.

(** Whatever the inputs, 257 tests of the loop condition are enough
    for the loop to end, with a verified key or with an exception. *)
Lemma recover_terminates (fuel : nat) :
  (257 ≤ fuel)%nat →
  run fuel [] = run 257 [] ∧ ∀ key', run 257 [] ≠ Running key'.
Proof.
  intros Hfuel.
  assert (∀ key', run 257 [] ≠ Running key') as H
    by (apply recover_ends; simpl; lia).
  split; [by apply recover_fuel_mono | done].
Qed.

End Driver.



(** The run of [Scenario] is one the attack can meet: the sample and the
    test vector are what the cipher produces under the secret key, and
    the verifier accepts that key. *)
Example scenario_sound :
  ARC4.update (Scenario.nonce ++ [Byte.x00] ++ Scenario.secret) (replicate 8 Byte.x00)
    = Ok Scenario.keystream
  ∧ len Scenario.keystream = Scenario.block_size
  ∧ verified ARC4.update Scenario.tv Scenario.counter_size Scenario.secret = true.
Proof. split_and!; vm_compute; reflexivity. Qed.

(** C3 at the run of [Scenario]: the configured key size is one byte and
    the verifier never accepts, yet the loop runs five rounds, to a key
    of five bytes, and ends only when the sixth round reads past the
    keystream: with an uncaught [IndexError], not with a reported
    failure at the key size. *)
Theorem recover_ignores_key_size :
  recover ARC4.update Scenario.tv Scenario.counter_size Scenario.nonce
    Scenario.samples 5 []
  = Running [Byte.x3a; Byte.xdc; Byte.x3e; Byte.x57; Byte.xea]
  ∧ Scenario.key_size < len [Byte.x3a; Byte.xdc; Byte.x3e; Byte.x57; Byte.xea]
  ∧ ∀ fuel, (6 ≤ fuel)%nat →
      attack ARC4.update Scenario.tv Scenario.counter_size Scenario.nonce
        Scenario.samples fuel = Uncaught IndexError.
Proof.
  split_and!; [by vm_compute | by vm_compute |].
  intros fuel Hfuel. unfold attack.
  assert (recover ARC4.update Scenario.tv Scenario.counter_size Scenario.nonce
            Scenario.samples 6 [] = Uncaught IndexError) as H6
    by (vm_compute; reflexivity).
  rewrite (recover_fuel_mono _ _ _ _ _ 6 fuel []), H6; [done | done |].
  intros key'. by rewrite H6.
Qed.

(** After the loop: the run of [HighByte] recovers and verifies the
    secret byte [0x8b], and [attack] then raises on
    [key.decode("ascii")] in its last log line instead of returning the
    key. *)
Example attack_decode_raises :
  recover ARC4.update HighByte.tv Scenario.counter_size Scenario.nonce
    HighByte.samples 2 [] = Verified HighByte.secret
  ∧ attack ARC4.update HighByte.tv Scenario.counter_size Scenario.nonce
      HighByte.samples 2 = Uncaught UnicodeDecodeError.
Proof. split; vm_compute; reflexivity. Qed.

(** ** Samples of the wrong length *)

(** C8, as amended: a sample whose keystream is shorter than the
    known-byte prefix makes the step of that sample raise [IndexError],
    and a round over samples that include it raises instead of choosing
    a key byte. *)
Theorem short_keystream_raises (nonce key counter keystream : list byte) :
  len keystream < len (nonce ++ counter ++ key) →
  candidate_key_byte nonce key (counter, keystream) = Raise IndexError
  ∧ ∀ samples, (counter, keystream) ∈ samples →
      ∃ e, recover_byte nonce samples key = Raise e.
Proof.
  intros Hshort.
  assert (candidate_key_byte nonce key (counter, keystream) = Raise IndexError)
    as Hraise.
  { unfold candidate_key_byte. set (known_bytes := nonce ++ counter ++ key) in *.
    pose proof (len_nonneg keystream).
    destruct (decide (len known_bytes ≤ 256)) as [Hle|Hgt].
    - destruct (simulate_Ok known_bytes Hle) as ([S_ j] & -> & _). step_Ok.
      by rewrite (getitem_ge keystream) by lia.
    - unfold KSA.simulate. by rewrite rounds_overflow by lia. }
  split; [done|]. intros samples Hin. unfold recover_byte, candidate_key_bytes.
  destruct (mapM_Raise (candidate_key_byte nonce key) samples
              (counter, keystream) IndexError Hin Hraise) as [e ->].
  by exists e.
Qed.

Lemma short_keystream_raises_witness :
  candidate_key_byte Scenario.nonce [] ([Byte.x00; Byte.x00], [Byte.x09; Byte.x08])
    = Raise IndexError
  ∧ ∀ samples, ([Byte.x00; Byte.x00], [Byte.x09; Byte.x08]) ∈ samples →
      ∃ e, recover_byte Scenario.nonce samples [] = Raise e.
Proof.
  apply (short_keystream_raises Scenario.nonce [] [Byte.x00; Byte.x00]
           [Byte.x09; Byte.x08]).
  unfold len. simpl. lia.
Defined.

(** C8 as stated fails: for counters of three bytes and blocks of 48
    bytes, a sample with a counter of two bytes and a keystream of five
    bytes is taken without any error and yields the candidate 247; and
    a ciphertext shorter than its plaintext is cut down by [zip] to a
    keystream of the shorter length. *)
Lemma malformed_sample_accepted :
  malformed_sample 3 48
    ([Byte.x00; Byte.x00], [Byte.x09; Byte.x08; Byte.x07; Byte.x06; Byte.x05])
  ∧ candidate_key_byte Scenario.nonce []
      ([Byte.x00; Byte.x00], [Byte.x09; Byte.x08; Byte.x07; Byte.x06; Byte.x05])
    = Ok 247
  ∧ xor_bytes [Byte.x01; Byte.x02; Byte.x03] [Byte.x01] = [Byte.x00].
Proof.
  split_and!; [| by vm_compute | by vm_compute].
  left. unfold len. simpl. lia.
Qed.

(** * Further properties of the code *)

(** ** Which inputs the replay and the step of a sample accept *)

Lemma getitem_below {A} (l : list A) (i : Z) :
  i < - len l → getitem l i = Raise IndexError.
Proof.
  intros Hi. pose proof (len_nonneg l). unfold getitem.
  rewrite (bool_decide_eq_true_2 (i < 0)) by lia. cbv zeta iota.
  by rewrite bool_decide_eq_true_2 by lia.
Qed.

Lemma simulate_overflow (known_bytes : list byte) :
  256 < len known_bytes → KSA.simulate known_bytes = Raise IndexError.
Proof. intros H. unfold KSA.simulate. apply rounds_overflow; lia. Qed.

(** X1: the replay of the key schedule returns a state exactly for
    known-byte prefixes of at most 256 bytes; on every longer prefix it
    raises [IndexError]. *)
Theorem simulate_Ok_iff (known_bytes : list byte) :
  (is_Ok (KSA.simulate known_bytes) ↔ len known_bytes ≤ 256)
  ∧ (∀ e, KSA.simulate known_bytes = Raise e → e = IndexError ∧ 256 < len known_bytes).
Proof.
  destruct (decide (len known_bytes ≤ 256)) as [Hle|Hgt].
  - destruct (simulate_Ok known_bytes Hle) as (st & Hst & _). rewrite Hst.
    split; [|by intros e [=]]. split; [done | by exists st].
  - rewrite simulate_overflow by lia. split.
    + split; [by intros [st [=]] | lia].
    + intros e [= <-]. split; [done | lia].
Qed.

(** X2: replaying one more known byte is replaying the prefix and then
    running one round of the loop at the index of the new byte: the state
    of a round continues the state of the round before. *)
Theorem simulate_snoc (known_bytes : list byte) (b : byte) :
  len known_bytes < 256 →
  KSA.simulate (known_bytes ++ [b])
  = KSA.simulate known_bytes
    ≫= λ st, KSA.round (known_bytes ++ [b]) st (len known_bytes).
Proof.
  intros Hlen. unfold KSA.simulate. rewrite len_app. change (len [b]) with 1.
  rewrite rounds_snoc by apply len_nonneg. f_equal.
  unfold len in *.
  destruct (rounds_Ok (known_bytes ++ [b]) (length known_bytes)) as [-> _];
    [rewrite length_app; lia | lia |].
  destruct (rounds_Ok known_bytes (length known_bytes)) as [-> _]; [lia..|].
  by rewrite take_app_length, firstn_all.
Qed.

Lemma simulate_snoc_witness :
  KSA.simulate ([Byte.x01; Byte.x02] ++ [Byte.x03])
  = KSA.simulate [Byte.x01; Byte.x02]
    ≫= λ st, KSA.round ([Byte.x01; Byte.x02] ++ [Byte.x03]) st
               (len [Byte.x01; Byte.x02]).
Proof.
  apply (simulate_snoc [Byte.x01; Byte.x02] Byte.x03). unfold len. simpl. lia.
Defined.

Lemma candidate_key_byte_ill_formed (nonce key : list byte) (s : sample) :
  ¬ well_formed_sample nonce key s →
  candidate_key_byte nonce key s = Raise IndexError.
Proof.
  destruct s as [counter keystream].
  unfold well_formed_sample, candidate_key_byte. cbn [fst snd].
  set (known_bytes := nonce ++ counter ++ key). intros Hnwf.
  pose proof (len_nonneg known_bytes) as Hn0.
  pose proof (len_nonneg keystream) as Hk0.
  destruct (decide (len known_bytes ≤ 256)) as [Hle|Hgt];
    [|by rewrite simulate_overflow by lia].
  destruct (simulate_Ok known_bytes Hle) as ([S_ j] & -> & Hperm & Hj). step_Ok.
  cbn [fst snd] in *.
  destruct (decide (len keystream < len known_bytes)) as [Hshort|Hlong];
    [by rewrite (getitem_ge keystream) by lia|].
  destruct (decide (keystream = [])) as [->|Hne].
  { change (len []) with 0 in *. by rewrite (getitem_below []) by (change (len []) with 0; lia). }
  assert (0 < len keystream) as Hks0
    by (destruct keystream; [done | unfold len; simpl; lia]).
  destruct (getitem_is_Ok keystream (len known_bytes - 1)) as [ob ->]; [lia|].
  step_Ok.
  set (next_S_i := (len known_bytes - byte_to_Z ob) `mod` 256).
  assert (0 ≤ next_S_i < 256) as Hnext by (apply Z.mod_pos_bound; lia).
  destruct (find_pre_i_permutation S_ next_S_i Hperm Hnext) as (pre_i & -> & _).
  step_Ok. unfold sub_pre_i. step_Ok.
  rewrite (getitem_ge S_); [done|].
  assert (length S_ = 256%nat) as HlenS
    by (rewrite Hperm; unfold range; by rewrite length_seqZ).
  assert (len known_bytes = 256); [|unfold len in *; lia].
  destruct (decide (len known_bytes < 256)); [|lia].
  exfalso. apply Hnwf. split_and!; [done | lia | done].
Qed.

(** X3: the step of a sample yields a candidate exactly when the sample
    is well formed for the round (known-byte prefix below 256 bytes,
    keystream non-empty and at least as long as the prefix); on every
    other sample it raises, and the only exception it ever raises is
    [IndexError]. *)
Theorem candidate_key_byte_Ok_iff (nonce key : list byte) (s : sample) :
  (is_Ok (candidate_key_byte nonce key s) ↔ well_formed_sample nonce key s)
  ∧ (∀ e, candidate_key_byte nonce key s = Raise e → e = IndexError).
Proof.
  destruct (decide (well_formed_sample nonce key s)) as [Hwf|Hnwf].
  - destruct (candidate_key_byte_spec nonce key s Hwf) as (c & Hc & _).
    rewrite Hc. split; [|by intros e [=]]. split; [done | by exists c].
  - rewrite (candidate_key_byte_ill_formed nonce key s Hnwf). split.
    + split; [by intros [c [=]] | done].
    + by intros e [= <-].
Qed.

(** ** How the recovery loop ends *)

Lemma mapM_Ok_inv {A B} (f : A → result B) (l : list A) (bs : list B) :
  mapM f l = Ok bs → Forall2 (λ a b, f a = Ok b) l bs.
Proof.
  revert bs. induction l as [|a l IH]; intros bs; cbn [mapM].
  - intros [= <-]. constructor.
  - intros (b & Hb & H)%bind_Ok_inv.
    apply bind_Ok_inv in H as (bs' & Hbs' & [= <-]).
    constructor; [done | by apply IH].
Qed.

Lemma mapM_Raise_inv {A B} (f : A → result B) (l : list A) (e : exn) :
  mapM f l = Raise e → ∃ a, a ∈ l ∧ f a = Raise e.
Proof.
  induction l as [|a l IH]; cbn [mapM]; [discriminate|].
  destruct (f a) as [b|e1] eqn:Hfa.
  - step_Ok. destruct (mapM f l) as [bs|e2]; [discriminate|].
    intros [= <-]. destruct (IH eq_refl) as (a' & Ha' & Hfa').
    exists a'. split; [by apply list_elem_of_further | done].
  - intros [= <-]. exists a. split; [apply list_elem_of_here | done].
Qed.

Lemma candidate_key_bytes_range (nonce key : list byte) (samples : list sample)
    (candidates : list Z) :
  candidate_key_bytes nonce key samples = Ok candidates →
  length candidates = length samples ∧ Forall (λ c, 0 ≤ c < 256) candidates.
Proof.
  intros H%mapM_Ok_inv. split; [symmetry; by eapply Forall2_length|].
  eapply Forall2_Forall_r; [exact H|]. apply Forall_forall.
  intros s _ c Hc.
  destruct (decide (well_formed_sample nonce key s)) as [Hwf|Hnwf].
  - destruct (candidate_key_byte_spec nonce key s Hwf) as (c' & Hc' & _ & Hr).
    congruence.
  - rewrite (candidate_key_byte_ill_formed nonce key s Hnwf) in Hc. discriminate.
Qed.

Lemma most_common_element_Raise (xs : list Z) (e : exn) :
  most_common_element xs = Raise e → xs = [] ∧ e = ValueError.
Proof.
  destruct xs as [|x xs]; [by intros [= <-]|].
  destruct (most_common_element_first_max (x :: xs)) as (v & -> & _); [done|].
  discriminate.
Qed.

Lemma bytes_of_int_Ok (v : Z) :
  0 ≤ v < 256 → ∃ b, bytes_of_int v = Ok [b].
Proof.
  intros Hv. unfold bytes_of_int. rewrite bool_decide_eq_true_2 by lia.
  destruct (Byte.of_N (Z.to_N v)) as [b|] eqn:E; [by exists b|].
  apply Byte.of_N_None_iff in E. lia.
Qed.

(** What a round that raises raised, and why. *)
Lemma recover_byte_Raise (nonce : list byte) (samples : list sample)
    (key : list byte) (e : exn) :
  recover_byte nonce samples key = Raise e →
  (samples = [] ∧ e = ValueError)
  ∨ (e = IndexError ∧ ∃ s, s ∈ samples ∧ ¬ well_formed_sample nonce key s).
Proof.
  unfold recover_byte.
  destruct (candidate_key_bytes nonce key samples) as [cs|e1] eqn:Hcs.
  - step_Ok. destruct (candidate_key_bytes_range _ _ _ _ Hcs) as [Hlen Hrange].
    destruct (most_common_element cs) as [v|e2] eqn:Hv.
    + step_Ok.
      destruct (most_common_element_first_max cs) as (v' & Hv' & i & Hi & _).
      { intros ->. discriminate. }
      assert (v' = v) as -> by congruence.
      assert (0 ≤ v < 256) as Hr.
      { apply (proj1 (Forall_forall _ _) Hrange). apply list_elem_of_lookup. eauto. }
      destruct (bytes_of_int_Ok v Hr) as [b ->]. discriminate.
    + intros [= <-]. apply most_common_element_Raise in Hv as [-> ->].
      left. split; [|done]. by destruct samples.
  - intros [= <-]. right. unfold candidate_key_bytes in Hcs.
    apply mapM_Raise_inv in Hcs as (s & Hs & Hraise).
    destruct (decide (well_formed_sample nonce key s)) as [Hwf|Hnwf].
    + destruct (candidate_key_byte_spec nonce key s Hwf) as (c & Hc & _).
      congruence.
    + rewrite (candidate_key_byte_ill_formed nonce key s Hnwf) in Hraise.
      split; [congruence | eauto].
Qed.

Section Outcomes.

Variable arc4_update : list byte → list byte → result (list byte).
Variable tv : test_vector.
Variable counter_size : Z.
Variable nonce : list byte.
Variable samples : list sample.

Local Abbreviation steps := (loop_steps arc4_update tv counter_size nonce samples).
Local Abbreviation run := (recover arc4_update tv counter_size nonce samples).
Local Abbreviation accepted := (verified arc4_update tv counter_size).

Lemma loop_steps_snoc (r : nat) (key key' key'' : list byte) :
  steps r key key' →
  loop_step arc4_update tv counter_size nonce samples key' key'' →
  steps (S r) key key''.
Proof.
  induction 1 as [key|r key k1 k2 Hstep _ IH]; intros Hlast.
  - econstructor; [done | constructor].
  - econstructor; [done | by apply IH].
Qed.

Lemma recover_Verified_inv (fuel : nat) (key0 key : list byte) :
  run fuel key0 = Verified key →
  accepted key = true ∧ ∃ r, (r < fuel)%nat ∧ steps r key0 key.
Proof.
  revert key0. induction fuel as [|fuel IH]; intros key0; cbn [recover];
    [discriminate|].
  destruct (accepted key0) eqn:Hacc.
  - intros [= <-]. split; [done|]. exists 0%nat. split; [lia | constructor].
  - destruct (recover_byte nonce samples key0) as [k|e] eqn:Hk; [|discriminate].
    intros (Hv & r & Hr & Hsteps)%IH. split; [done|].
    exists (S r). split; [lia|]. by econstructor.
Qed.

(** X4: the key that [attack] returns is one the verifier accepted; it
    was reached from the empty key by as many rounds as it has bytes; and
    it holds only bytes below 128, since a verified key with a higher
    byte makes [key.decode("ascii")] raise before the return. *)
Theorem attack_returns_verified (fuel : nat) (key : list byte) :
  attack arc4_update tv counter_size nonce samples fuel = Verified key →
  accepted key = true
  ∧ steps (length key) [] key
  ∧ Forall (λ b, byte_to_Z b < 128) key.
Proof.
  unfold attack. destruct (run fuel []) as [k|e|k] eqn:Hrun; [|discriminate..].
  destruct (forallb _ k) eqn:Hascii; [|discriminate]. intros [= <-].
  apply recover_Verified_inv in Hrun as (Hv & r & _ & Hsteps).
  split; [done|]. split.
  - destruct (loop_steps_append _ _ _ _ _ _ _ _ Hsteps) as (ext & Hk & <-).
    simpl in Hk. by subst ext.
  - apply Forall_forall. intros b Hb%list_elem_of_In.
    apply (proj1 (forallb_forall _ _) Hascii) in Hb.
    by apply bool_decide_eq_true in Hb.
Qed.

(** X5: a key that the loop verifies but that holds a byte of 128 or
    more is never returned: [attack] ends with [UnicodeDecodeError]. *)
Theorem attack_decode_error (fuel : nat) (key : list byte) (b : byte) :
  run fuel [] = Verified key → b ∈ key → 128 ≤ byte_to_Z b →
  attack arc4_update tv counter_size nonce samples fuel
  = Uncaught UnicodeDecodeError.
Proof.
  intros Hrun Hb Hhigh. unfold attack. rewrite Hrun.
  destruct (forallb _ key) eqn:Hascii; [|done].
  apply list_elem_of_In in Hb.
  apply (proj1 (forallb_forall _ _) Hascii), bool_decide_eq_true in Hb. lia.
Qed.

(** X6: an exception that leaves the recovery loop is a [ValueError]
    when there are no samples (the majority of an empty candidate list)
    and otherwise an [IndexError] raised for a sample that is not well
    formed for the key reached; the loop never ends with [KeyError],
    [TypeError] or [OverflowError]. *)
Theorem recover_uncaught (fuel : nat) (key0 : list byte) (e : exn) :
  run fuel key0 = Uncaught e →
  (samples = [] ∧ e = ValueError)
  ∨ (e = IndexError
     ∧ ∃ r key s, steps r key0 key ∧ s ∈ samples
                  ∧ ¬ well_formed_sample nonce key s).
Proof.
  revert key0. induction fuel as [|fuel IH]; intros key0; cbn [recover];
    [discriminate|].
  destruct (accepted key0) eqn:Hacc; [discriminate|].
  destruct (recover_byte nonce samples key0) as [k|e1] eqn:Hk.
  - intros [H|(He & r & key & s & Hsteps & Hs & Hnwf)]%IH; [by left|].
    right. split; [done|]. exists (S r), key, s. split_and!; try done.
    by econstructor.
  - intros [= <-]. apply recover_byte_Raise in Hk as [H|(He & s & Hs & Hnwf)];
      [by left|].
    right. split; [done|]. exists 0%nat, key0, s. split_and!; try done.
    constructor.
Qed.

(** X7: without samples the loop raises [ValueError] in its first round,
    unless the empty key is already accepted. *)
Theorem recover_no_samples (fuel : nat) :
  samples = [] → accepted [] = false →
  run (S fuel) [] = Uncaught ValueError.
Proof.
  intros Hs Hacc. cbn [recover]. rewrite Hacc.
  assert (recover_byte nonce samples [] = Raise ValueError) as ->; [|done].
  by rewrite Hs.
Qed.

(** X8: whatever the cipher, the samples and the test vector, the loop
    has ended after at most 257 tests of its condition, with a verified
    key or an exception; more fuel does not change the outcome. *)
Theorem recover_bounded (fuel : nat) :
  (257 ≤ fuel)%nat →
  run fuel [] = run 257 []
  ∧ ((∃ key, run fuel [] = Verified key ∧ (length key ≤ 256)%nat)
     ∨ ∃ e, run fuel [] = Uncaught e).
Proof.
  intros Hfuel.
  destruct (recover_terminates arc4_update tv counter_size nonce samples fuel Hfuel)
    as [Heq Hend].
  split; [done|]. rewrite Heq.
  destruct (run 257 []) as [k|e|k] eqn:Hrun.
  - left. exists k. split; [done|].
    apply recover_Verified_inv in Hrun as (_ & r & Hr & Hsteps).
    destruct (loop_steps_append _ _ _ _ _ _ _ _ Hsteps) as (ext & -> & <-).
    simpl. lia.
  - right. by exists e.
  - by destruct (Hend k).
Qed.

(** X9: when the counter of the test vector does not fit [counter_size]
    bytes (or is negative), the verifier rejects every key, so [attack]
    never returns a key. *)
Theorem attack_counter_overflow (fuel : nat) (key : list byte) :
  256 ^ counter_size ≤ test_counter tv ∨ test_counter tv < 0 →
  accepted key = false
  ∧ attack arc4_update tv counter_size nonce samples fuel ≠ Verified key.
Proof.
  intros Hc.
  assert (∀ k, accepted k = false) as Hrej.
  { intros k. unfold verified, test_key, test_key_try.
    assert (∃ e, to_bytes (test_counter tv) counter_size = Raise e) as [e ->];
      [|done].
    unfold to_bytes. repeat case_bool_decide; eauto. lia. }
  split; [done|]. unfold attack.
  destruct (run fuel []) as [k|e|k] eqn:Hrun; [|done..].
  apply recover_Verified_inv in Hrun as [Hv _]. rewrite Hrej in Hv. discriminate.
Qed.

End Outcomes.

(** Instances of the theorems on how the loop ends. *)

Lemma attack_returns_verified_witness :
  verified ARC4.update Ascii.tv Scenario.counter_size Ascii.secret = true
  ∧ loop_steps ARC4.update Ascii.tv Scenario.counter_size Scenario.nonce
      Ascii.samples (length Ascii.secret) [] Ascii.secret
  ∧ Forall (λ b, byte_to_Z b < 128) Ascii.secret.
Proof.
  apply (attack_returns_verified ARC4.update Ascii.tv Scenario.counter_size
           Scenario.nonce Ascii.samples 2 Ascii.secret).
  vm_compute. reflexivity.
Defined.

Lemma attack_decode_error_witness :
  attack ARC4.update HighByte.tv Scenario.counter_size Scenario.nonce
    HighByte.samples 2 = Uncaught UnicodeDecodeError.
Proof.
  apply (attack_decode_error ARC4.update HighByte.tv Scenario.counter_size
           Scenario.nonce HighByte.samples 2 HighByte.secret Byte.x8b).
  - vm_compute. reflexivity.
  - apply list_elem_of_here.
  - vm_compute. discriminate.
Defined.

Lemma recover_uncaught_witness :
  (Scenario.samples = [] ∧ IndexError = ValueError)
  ∨ (IndexError = IndexError
     ∧ ∃ r key s,
         loop_steps ARC4.update Scenario.tv Scenario.counter_size Scenario.nonce
           Scenario.samples r [] key
         ∧ s ∈ Scenario.samples
         ∧ ¬ well_formed_sample Scenario.nonce key s).
Proof.
  apply (recover_uncaught ARC4.update Scenario.tv Scenario.counter_size
           Scenario.nonce Scenario.samples 6 [] IndexError).
  vm_compute. reflexivity.
Defined.

Lemma recover_no_samples_witness :
  recover ARC4.update Scenario.tv Scenario.counter_size Scenario.nonce [] 3 []
  = Uncaught ValueError.
Proof.
  apply (recover_no_samples ARC4.update Scenario.tv Scenario.counter_size
           Scenario.nonce [] 2); [reflexivity | vm_compute; reflexivity].
Defined.

Lemma recover_bounded_witness :
  recover ARC4.update Scenario.tv Scenario.counter_size Scenario.nonce
    Scenario.samples 300 []
  = recover ARC4.update Scenario.tv Scenario.counter_size Scenario.nonce
      Scenario.samples 257 []
  ∧ ((∃ key,
        recover ARC4.update Scenario.tv Scenario.counter_size Scenario.nonce
          Scenario.samples 300 [] = Verified key ∧ (length key ≤ 256)%nat)
     ∨ ∃ e,
        recover ARC4.update Scenario.tv Scenario.counter_size Scenario.nonce
          Scenario.samples 300 [] = Uncaught e).
Proof.
  apply (recover_bounded ARC4.update Scenario.tv Scenario.counter_size
           Scenario.nonce Scenario.samples 300).
  lia.
Defined.

Lemma attack_counter_overflow_witness :
  verified ARC4.update (TestVector [Byte.x04; Byte.x05; Byte.x06] 999 [] [])
    1 Scenario.secret = false
  ∧ attack ARC4.update (TestVector [Byte.x04; Byte.x05; Byte.x06] 999 [] [])
      1 Scenario.nonce Scenario.samples 9 ≠ Verified Scenario.secret.
Proof.
  apply (attack_counter_overflow ARC4.update
           (TestVector [Byte.x04; Byte.x05; Byte.x06] 999 [] [])
           1 Scenario.nonce Scenario.samples 9 Scenario.secret).
  left. simpl. lia.
Defined.

(** ** The tallies *)

Lemma sum_cons (a : Z) (l : list Z) : sum (a :: l) = a + sum l.
Proof. reflexivity. Qed.

Lemma sum_fmap_add {A} (f g : A → Z) (l : list A) :
  sum ((λ k, f k + g k) <$> l) = sum (f <$> l) + sum (g <$> l).
Proof.
  induction l as [|a l IH]; [done|].
  rewrite !fmap_cons, !sum_cons, IH. lia.
Qed.

Lemma sum_indicator (a : Z) (l : list Z) :
  NoDup l →
  sum ((λ k, if decide (a = k) then 1 else 0) <$> l)
  = if decide (a ∈ l) then 1 else 0.
Proof.
  induction 1 as [|k l Hk _ IH].
  - by rewrite decide_False by apply not_elem_of_nil.
  - rewrite fmap_cons, sum_cons, IH. destruct (decide (a = k)) as [->|Hne].
    + rewrite (decide_False (P := k ∈ l)) by done.
      by rewrite decide_True by apply list_elem_of_here.
    + destruct (decide (a ∈ l)) as [Hin|Hnin].
      * by rewrite decide_True by (by apply list_elem_of_further).
      * rewrite decide_False; [done|]. by intros [?|?]%elem_of_cons.
Qed.

Lemma filter_all {A} (P : A → Prop) `{!∀ x, Decision (P x)} (l : list A) :
  Forall P l → filter P l = l.
Proof.
  induction 1 as [|a l Ha _ IH]; [done|].
  by rewrite filter_cons_True, IH.
Qed.

(** The tallies of the values of a duplicate-free list add up to the
    number of elements that are among these values. *)
Lemma sum_tally (xs l : list Z) :
  NoDup l → sum (tally xs <$> l) = len (filter (λ x, x ∈ l) xs).
Proof.
  intros Hl. induction xs as [|a xs IH].
  - clear Hl. induction l as [|k l IH]; [done|].
    by rewrite fmap_cons, sum_cons, IH.
  - rewrite (list_fmap_ext (tally (a :: xs))
               (λ k, (if decide (a = k) then 1 else 0) + tally xs k) l)
      by (intros; apply tally_cons).
    rewrite sum_fmap_add, sum_indicator, IH by done.
    destruct (decide (a ∈ l)) as [Hin|Hnin].
    + rewrite filter_cons_True by done. unfold len. simpl. lia.
    + rewrite filter_cons_False by done. lia.
Qed.

Lemma tally_elem (xs : list Z) (x : Z) : x ∈ xs → 1 ≤ tally xs x.
Proof.
  intros Hx%list_elem_of_In. unfold tally.
  apply (count_occ_In Z.eq_dec) in Hx. lia.
Qed.

(** X10: [count_elements] never raises; the dictionary it returns has
    exactly the values of the sequence as keys, each with the number of
    its occurrences (at least 1), and its counts add up to the length of
    the sequence. *)
Theorem count_elements_counts (xs : list Z) :
  ∃ counts : gmap Z Z,
    count_elements xs = Ok counts
    ∧ (∀ x, counts !! x = if decide (x ∈ xs) then Some (tally xs x) else None)
    ∧ (∀ x c, counts !! x = Some c → x ∈ xs ∧ 1 ≤ c)
    ∧ sum (map_to_list counts).*2 = len xs.
Proof.
  destruct (count_elements_spec xs) as (counts & Hc & Hl).
  exists counts. split_and!; [done | done | |].
  - intros x c. rewrite Hl. case_decide; [|discriminate].
    intros [= <-]. split; [done | by apply tally_elem].
  - assert ((map_to_list counts).*2 = tally xs <$> (map_to_list counts).*1) as ->.
    { rewrite <- list_fmap_compose. apply Forall_fmap_ext_1, Forall_forall.
      intros [k v] Hkv%elem_of_map_to_list. simpl.
      rewrite Hl in Hkv. case_decide; [congruence | discriminate]. }
    rewrite sum_tally by apply NoDup_fst_map_to_list.
    rewrite filter_all; [done|]. apply Forall_forall. intros x Hx.
    apply list_elem_of_fmap. exists (x, tally xs x). split; [done|].
    apply elem_of_map_to_list. by rewrite Hl, decide_True.
Qed.

(** X11: [most_common_element] raises on the empty sequence and on no
    other, and what it raises is the [ValueError] of [max]; it never
    raises [KeyError] or [TypeError]. *)
Theorem most_common_element_raises_iff (xs : list Z) (e : exn) :
  most_common_element xs = Raise e ↔ xs = [] ∧ e = ValueError.
Proof.
  split; [apply most_common_element_Raise | by intros [-> ->]].
Qed.

(** X12: the histogram of [plot_key_character_frequencies] has one bar
    for each key of [0..255], in order, and the bar of a key is the
    number of its occurrences among the candidates; the bars add up to
    the number of candidates in [0..255], so to the number of all
    candidates when these are bytes, and any other candidate is left
    out. *)
Theorem plot_key_character_frequencies_counts (xs : list Z) :
  ∃ counts,
    plot_key_character_frequencies xs = Ok (range 256, counts)
    ∧ length counts = 256%nat
    ∧ (∀ k, 0 ≤ k < 256 → counts !! Z.to_nat k = Some (tally xs k))
    ∧ sum counts = len (filter (λ x, 0 ≤ x < 256) xs)
    ∧ (Forall (λ x, 0 ≤ x < 256) xs → sum counts = len xs).
Proof.
  unfold plot_key_character_frequencies.
  destruct (count_elements_spec xs) as (dict & -> & Hl). step_Ok.
  assert ((λ k, default 0 (dict !! k)) <$> range 256 = tally xs <$> range 256)
    as ->.
  { apply list_fmap_ext. intros _ k _. rewrite Hl. case_decide; [done|].
    simpl. symmetry. by apply tally_not_elem. }
  assert (sum (tally xs <$> range 256) = len (filter (λ x, 0 ≤ x < 256) xs))
    as Hsum.
  { unfold range. rewrite sum_tally by apply NoDup_seqZ. f_equal.
    apply list_filter_iff. intros x. rewrite elem_of_seqZ. lia. }
  exists (tally xs <$> range 256). split_and!; [done | | | done |].
  - unfold range. by rewrite length_fmap, length_seqZ.
  - intros k Hk. rewrite list_lookup_fmap. unfold range.
    rewrite lookup_seqZ_lt by lia. simpl. do 2 f_equal. lia.
  - intros Hall. by rewrite Hsum, filter_all.
Qed.

(** ** Extracting the keystream *)

Lemma lxor_byte (a b : Z) : 0 ≤ a < 256 → 0 ≤ b < 256 → 0 ≤ Z.lxor a b < 256.
Proof.
  intros Ha Hb. split; [apply Z.lxor_nonneg; lia|].
  assert (Z.lxor a b = Z.lxor a b `mod` 2 ^ 8) as ->.
  { apply Z.bits_inj'. intros n Hn. destruct (decide (n < 8)).
    - by rewrite Z.mod_pow2_bits_low by lia.
    - rewrite Z.mod_pow2_bits_high, Z.lxor_spec by lia.
      rewrite <- (Z.mod_small a (2 ^ 8)), <- (Z.mod_small b (2 ^ 8)) by lia.
      by rewrite !Z.mod_pow2_bits_high by lia. }
  apply Z.mod_pos_bound. lia.
Qed.

Lemma xor_byte_involutive (p k : byte) :
  Z_to_byte (Z.lxor (byte_to_Z p)
               (byte_to_Z (Z_to_byte (Z.lxor (byte_to_Z p) (byte_to_Z k))))) = k.
Proof.
  pose proof (byte_to_Z_range p). pose proof (byte_to_Z_range k).
  rewrite byte_to_Z_to_byte, Z.mod_small by (by apply lxor_byte).
  rewrite <- Z.lxor_assoc, Z.lxor_nilpotent, Z.lxor_0_l.
  apply Z_to_byte_to_Z.
Qed.

Lemma xor_bytes_keystream_aux (plaintext keystream : list byte) :
  length (xor_bytes plaintext keystream)
  = (length plaintext `min` length keystream)%nat
  ∧ xor_bytes plaintext (xor_bytes plaintext keystream)
    = take (length plaintext) keystream.
Proof.
  split; [apply length_zip_with|].
  unfold xor_bytes. revert keystream.
  induction plaintext as [|p pt IH]; intros [|k ks]; simpl; try done.
  by rewrite xor_byte_involutive, IH.
Qed.

(** X13: the keystream that line 226 extracts has the length of the
    shorter of plaintext and ciphertext, and when the ciphertext is the
    plaintext xor-ed with a keystream, what is extracted is that
    keystream, cut to the length of the plaintext, whatever the
    plaintext is. *)
Theorem xor_bytes_keystream (plaintext keystream ciphertext : list byte) :
  length (xor_bytes plaintext ciphertext)
  = (length plaintext `min` length ciphertext)%nat
  ∧ xor_bytes plaintext (xor_bytes plaintext keystream)
    = take (length plaintext) keystream.
Proof.
  split; [apply length_zip_with|].
  apply xor_bytes_keystream_aux.
Qed.

(** ** The sample cache *)

Lemma fromhex_hex_byte (b : byte) (s : string) :
  fromhex (String (hex_digit (byte_to_Z b `div` 16))
             (String (hex_digit (byte_to_Z b `mod` 16)) s))
  = fromhex s ≫= λ bs, Ok (b :: bs).
Proof. destruct b; reflexivity. Qed.

Lemma fromhex_hex (bs : list byte) : fromhex (hex bs) = Ok bs.
Proof.
  induction bs as [|b bs IH]; [done|].
  cbn [hex]. by rewrite fromhex_hex_byte, IH.
Qed.

Lemma read_row_written (n counter keystream : list byte) :
  read_row_nonce [hex n; hex counter; hex keystream] = Ok n
  ∧ read_row_sample [hex n; hex counter; hex keystream] = Ok (counter, keystream).
Proof.
  unfold read_row_nonce, read_row_sample.
  rewrite (getitem_lookup _ 0 (hex n)), (getitem_lookup _ 1 (hex counter)),
    (getitem_lookup _ 2 (hex keystream)) by (done || lia).
  split; repeat (step_Ok; rewrite ?fromhex_hex); done.
Qed.

Lemma read_rows_written (n : list byte) (samples acc : list sample)
    (n0 : option (list byte)) :
  read_rows n0 acc (write_cache (Some n) samples)
  = (if decide (samples = []) then n0 else Some n, acc ++ samples).
Proof.
  revert n0 acc. induction samples as [|[c k] samples IH]; intros n0 acc.
  - by rewrite app_nil_r.
  - cbn [write_cache fmap list_fmap read_rows fst snd].
    destruct (read_row_written n c k) as [-> ->].
    fold (write_cache (Some n) samples). rewrite IH.
    rewrite <- app_assoc. simpl. by case_decide.
Qed.

Lemma length_hex (bs : list byte) :
  Z.of_nat (String.length (hex bs)) = 2 * len bs.
Proof.
  induction bs as [|b bs IH]; [done|].
  cbn [hex String.length]. unfold len in *. simpl length. lia.
Qed.

(** Rows whose fields stay within the limit of [csv.reader] are read as
    they were written. *)
Lemma csv_read_written_cache (n : list byte) (samples : list sample) :
  len n ≤ 65536 →
  Forall (λ s : sample, len s.1 ≤ 65536 ∧ len s.2 ≤ 65536) samples →
  csv_read_written (write_cache (Some n) samples) = write_cache (Some n) samples.
Proof.
  intros Hn. induction 1 as [|[c k] samples [Hc Hk] _ IH]; [done|].
  cbn [write_cache fmap list_fmap csv_read_written fst snd] in *.
  assert (csv_readable [hex n; hex c; hex k] = true) as ->.
  { unfold csv_readable, csv_field_limit. cbn [forallb].
    rewrite !length_hex, !bool_decide_eq_true_2 by (simpl in *; lia). done. }
  by rewrite IH.
Qed.

Lemma cache_round_trip_aux (nonce : list byte) (samples : list sample) :
  len nonce ≤ 65536 →
  Forall (λ s : sample, len s.1 ≤ 65536 ∧ len s.2 ≤ 65536) samples →
  read_cache (Some (csv_read_written (write_cache (Some nonce) samples)))
  = (if decide (samples = []) then None else Some nonce, samples).
Proof.
  intros Hn Hs. rewrite csv_read_written_cache by done.
  unfold read_cache. by rewrite read_rows_written.
Qed.

(** X14: when the nonce and the counter and keystream of every sample
    have at most 65536 bytes, so that every field that [write_cache]
    writes stays within the field limit of [csv.reader], reading the
    written cache back returns the samples that were written, in order,
    together with the nonce; only a cache written from no samples has no
    rows, and reading it returns no nonce. *)
Theorem cache_round_trip (nonce : list byte) (samples : list sample) :
  len nonce ≤ 65536 →
  Forall (λ s : sample, len s.1 ≤ 65536 ∧ len s.2 ≤ 65536) samples →
  read_cache (Some (csv_read_written (write_cache (Some nonce) samples)))
  = (if decide (samples = []) then None else Some nonce, samples).
Proof.
  intros Hn Hs. rewrite csv_read_written_cache by done.
  unfold read_cache. rewrite read_rows_written. done.
Qed.

Lemma cache_round_trip_witness :
  read_cache
    (Some (csv_read_written
             (write_cache (Some Scenario.nonce)
                [([Byte.x00], [Byte.xaa; Byte.xbb]); ([Byte.x01], [])])))
  = (if decide ([([Byte.x00], [Byte.xaa; Byte.xbb]); ([Byte.x01], [])] = [])
     then None else Some Scenario.nonce,
     [([Byte.x00], [Byte.xaa; Byte.xbb]); ([Byte.x01], [])]).
Proof.
  apply (cache_round_trip Scenario.nonce
           [([Byte.x00], [Byte.xaa; Byte.xbb]); ([Byte.x01], [])]).
  - unfold len. simpl. lia.
  - repeat constructor; unfold len; simpl; lia.
Defined.

Lemma read_rows_app (good rows : list row) (n0 : option (list byte))
    (acc : list sample) :
  Forall (λ r, is_Ok (read_row_nonce r) ∧ is_Ok (read_row_sample r)) good →
  read_rows n0 acc (good ++ rows)
  = read_rows (read_rows n0 acc good).1 (read_rows n0 acc good).2 rows
  ∧ length (read_rows n0 acc good).2 = (length acc + length good)%nat.
Proof.
  intros Hgood. revert n0 acc.
  induction Hgood as [|r good [[n Hn] [s Hs]] _ IH]; intros n0 acc.
  - simpl. split; [done | lia].
  - cbn [app read_rows]. rewrite Hn, Hs.
    destruct (IH (Some n) (acc ++ [s])) as [-> ->].
    split; [done|]. rewrite length_app. simpl. lia.
Qed.

(** X15: [read_cache] never fails.  A file that cannot be opened gives
    no nonce and no samples; a row that cannot be parsed ends the
    reading without a report to the caller: the samples of the rows
    before it are returned, one per row, and the rows after it are
    ignored. *)
Theorem read_cache_partial (good rest : list row) (bad : row) :
  Forall (λ r, is_Ok (read_row_nonce r) ∧ is_Ok (read_row_sample r)) good →
  ¬ (is_Ok (read_row_nonce bad) ∧ is_Ok (read_row_sample bad)) →
  read_cache None = (None, [])
  ∧ (read_cache (Some (good ++ bad :: rest))).2 = (read_cache (Some good)).2
  ∧ length (read_cache (Some good)).2 = length good.
Proof.
  intros Hgood Hbad. split; [done|]. unfold read_cache.
  destruct (read_rows_app good (bad :: rest) None [] Hgood) as [-> Hlen].
  split; [|done]. cbn [read_rows].
  destruct (read_row_nonce bad) as [n|e]; [|done].
  destruct (read_row_sample bad) as [s|e]; [|done].
  exfalso. apply Hbad. split; eexists; done.
Qed.

Lemma read_cache_partial_witness :
  read_cache None = (None, [])
  ∧ (read_cache (Some ([["0102"; "00"; "aabb"]] ++ ["0102"; "zz"] :: [["0102"; "02"; "ccdd"]]))).2
    = (read_cache (Some [["0102"; "00"; "aabb"]])).2
  ∧ length (read_cache (Some [["0102"; "00"; "aabb"]])).2
    = length [["0102"; "00"; "aabb"]].
Proof.
  apply (read_cache_partial [["0102"; "00"; "aabb"]] [["0102"; "02"; "ccdd"]]
           ["0102"; "zz"]).
  - repeat constructor; eexists; vm_compute; reflexivity.
  - intros [_ [s Hs]]. vm_compute in Hs. discriminate.
Defined.

Lemma read_rows_all (rows : list row) (nonces : list (list byte))
    (samples acc : list sample) (n0 : option (list byte)) :
  Forall2 (λ r n, read_row_nonce r = Ok n) rows nonces →
  Forall2 (λ r s, read_row_sample r = Ok s) rows samples →
  read_rows n0 acc rows
  = (match last nonces with Some n => Some n | None => n0 end, acc ++ samples).
Proof.
  intros Hn. revert samples acc n0.
  induction Hn as [|r n rows nonces Hr _ IH]; intros samples acc n0 Hs.
  - apply Forall2_nil_inv_l in Hs as ->. by rewrite app_nil_r.
  - apply Forall2_cons_inv_l in Hs as (s & samples' & Hrs & Hs & ->).
    cbn [read_rows]. rewrite Hr, Hrs, (IH samples' _ _ Hs).
    rewrite <- app_assoc. f_equal.
    destruct nonces as [|n' nonces]; [done|]. rewrite last_cons_cons.
    destruct (last (n' :: nonces)) eqn:E; [done|].
    by apply last_None in E.
Qed.

(** X16: when every row of the cache can be parsed, [read_cache] returns
    one sample per row, in order, and the nonce of the last row; the
    nonces of the other rows are not compared with it, so rows under
    different nonces are not detected. *)
Theorem read_cache_all_rows (rows : list row) (nonces : list (list byte))
    (samples : list sample) :
  Forall2 (λ r n, read_row_nonce r = Ok n) rows nonces →
  Forall2 (λ r s, read_row_sample r = Ok s) rows samples →
  read_cache (Some rows) = (last nonces, samples).
Proof.
  intros Hn Hs. unfold read_cache. rewrite (read_rows_all _ _ _ _ _ Hn Hs).
  simpl. by destruct (last nonces).
Qed.

Lemma read_cache_all_rows_witness :
  read_cache (Some [["0102"; "00"; "aabb"]; ["0909"; "01"; "ccdd"]])
  = (last [[Byte.x01; Byte.x02]; [Byte.x09; Byte.x09]],
     [([Byte.x00], [Byte.xaa; Byte.xbb]); ([Byte.x01], [Byte.xcc; Byte.xdd])]).
Proof.
  apply (read_cache_all_rows
           [["0102"; "00"; "aabb"]; ["0909"; "01"; "ccdd"]]
           [[Byte.x01; Byte.x02]; [Byte.x09; Byte.x09]]
           [([Byte.x00], [Byte.xaa; Byte.xbb]); ([Byte.x01], [Byte.xcc; Byte.xdd])]);
    repeat constructor.
Defined.

Lemma read_rows_nonce (rows : list row) (n0 : option (list byte))
    (acc : list sample) :
  (acc ≠ [] → is_Some n0) →
  (read_rows n0 acc rows).2 ≠ [] → is_Some (read_rows n0 acc rows).1.
Proof.
  revert n0 acc. induction rows as [|r rows IH]; intros n0 acc Hacc;
    cbn [read_rows]; [done|].
  destruct (read_row_nonce r) as [n|e]; [|done].
  destruct (read_row_sample r) as [s|e]; [|by eauto].
  apply IH. by eauto.
Qed.

(** ** Taking samples *)

Lemma mapM_app {A B} (f : A → result B) (l1 l2 : list A) :
  mapM f (l1 ++ l2)
  = mapM f l1 ≫= λ bs1, mapM f l2 ≫= λ bs2, Ok (bs1 ++ bs2).
Proof.
  induction l1 as [|a l1 IH]; cbn [app mapM].
  - step_Ok. by destruct (mapM f l2).
  - destruct (f a) as [b|e]; [|done]. step_Ok. rewrite IH.
    destruct (mapM f l1) as [bs1|e]; [|done]. step_Ok.
    by destruct (mapM f l2).
Qed.

Lemma mapM_fmap {A B} (f : A → result B) (g : A → B) (l : list A) :
  (∀ a, a ∈ l → f a = Ok (g a)) → mapM f l = Ok (g <$> l).
Proof.
  induction l as [|a l IH]; intros Hf; cbn [mapM]; [done|].
  rewrite (Hf a) by apply list_elem_of_here. step_Ok.
  rewrite IH by (intros; by apply Hf, list_elem_of_further). done.
Qed.

Lemma to_bytes_Ok (n length : Z) :
  0 ≤ length → 0 ≤ n < 256 ^ length →
  to_bytes n length = Ok (le_digits (Z.to_nat length) n).
Proof.
  intros Hl Hn. unfold to_bytes. by rewrite !bool_decide_eq_false_2 by lia.
Qed.

Section SamplingProperties.

Variable oracle : list byte → Z → list byte → result (list byte).
Variable token : Z → list byte.

(** X17: when the oracle answers with the plaintext xor-ed with a
    keystream of the block, the samples that the sampling loop returns
    hold, for each counter of [range(num_samples)] in order, that
    keystream cut to the length of the plaintext: the keystreams of the
    samples do not depend on the random plaintexts beyond their
    lengths. *)
Theorem collect_samples_stream (stream : Z → list byte) (nonce : list byte)
    (counter_size num_samples : Z) (samples : list sample) :
  collect_samples oracle token nonce counter_size num_samples = Ok samples →
  (∀ c, 0 ≤ c < num_samples →
        oracle nonce c (token c) = Ok (xor_bytes (token c) (stream c))) →
  samples.*2 = (λ c, take (length (token c)) (stream c)) <$> range num_samples.
Proof.
  unfold collect_samples, range. intros H%mapM_Ok_inv Horacle.
  assert (∀ c, c ∈ seqZ 0 num_samples → 0 ≤ c < num_samples) as Hrange
    by (intros c Hc%elem_of_seqZ; lia).
  revert H Hrange. generalize (seqZ 0 num_samples). intros counters H.
  induction H as [|c s counters samples Hs _ IH]; intros Hrange; [done|].
  rewrite !fmap_cons. f_equal.
  - unfold take_sample in Hs.
    rewrite (Horacle c) in Hs by apply Hrange, list_elem_of_here.
    rewrite bind_Ok_l in Hs. cbv beta zeta in Hs.
    apply bind_Ok_inv in Hs as (cb & _ & [= <-]). cbn [snd].
    apply xor_bytes_keystream_aux.
  - apply IH. intros c' Hc'. by apply Hrange, list_elem_of_further.
Qed.

(** X18: with counters of [counter_size] bytes the sampling loop cannot
    take more than [256 ^ counter_size] samples: when more are asked for
    and the oracle answers every request, the loop raises
    [OverflowError] at the first counter that does not fit, and no
    samples are returned. *)
Theorem collect_samples_overflow (nonce : list byte)
    (counter_size num_samples : Z) :
  0 ≤ counter_size → 256 ^ counter_size < num_samples →
  (∀ c, 0 ≤ c ≤ 256 ^ counter_size → is_Ok (oracle nonce c (token c))) →
  collect_samples oracle token nonce counter_size num_samples
  = Raise OverflowError.
Proof.
  intros Hcs Hnum Horacle. unfold collect_samples.
  assert (0 < 256 ^ counter_size) as Hpos by (apply Z.pow_pos_nonneg; lia).
  replace num_samples
    with (256 ^ counter_size + (num_samples - 256 ^ counter_size)) by lia.
  rewrite range_app, mapM_app by lia.
  assert (∃ bs, mapM (take_sample oracle token nonce counter_size)
                  (range (256 ^ counter_size)) = Ok bs) as [bs ->].
  { eexists.
    apply (mapM_fmap _ (λ c, (le_digits (Z.to_nat counter_size) c,
                              xor_bytes (token c)
                                (match oracle nonce c (token c) with
                                 | Ok ct => ct
                                 | Raise _ => []
                                 end)))).
    intros c Hc%elem_of_seqZ. unfold take_sample.
    destruct (Horacle c) as [ct ->]; [lia|]. step_Ok.
    by rewrite to_bytes_Ok by lia. }
  step_Ok. rewrite seqZ_cons by lia. cbn [mapM].
  assert (take_sample oracle token nonce counter_size (256 ^ counter_size)
          = Raise OverflowError) as ->; [|done].
  unfold take_sample.
  destruct (Horacle (256 ^ counter_size)) as [ct ->]; [lia|]. step_Ok.
  unfold to_bytes. rewrite (bool_decide_eq_false_2 (counter_size < 0)) by lia.
  rewrite (bool_decide_eq_false_2 (256 ^ counter_size < 0)) by lia.
  by rewrite bool_decide_eq_true_2 by lia.
Qed.

(** X19: the samples that the sampling loop returns are as many as
    [num_samples] asks for; the counter of the sample at position [i] is
    the [counter_size]-byte little-endian encoding of [i], so that no
    two samples have the same counter. *)
Theorem collect_samples_counters (nonce : list byte)
    (counter_size num_samples : Z) (samples : list sample) :
  collect_samples oracle token nonce counter_size num_samples = Ok samples →
  length samples = Z.to_nat num_samples
  ∧ (∀ (i : nat) s, samples !! i = Some s →
       len s.1 = counter_size ∧ le_int s.1 = Z.of_nat i)
  ∧ NoDup samples.*1.
Proof.
  intros H%mapM_Ok_inv.
  assert (∀ (i : nat) s, samples !! i = Some s →
            len s.1 = counter_size ∧ le_int s.1 = Z.of_nat i) as Hcounters.
  { intros i s Hs.
    destruct (Forall2_lookup_r _ _ _ _ _ H Hs) as (c & Hc & Htake).
    unfold range in Hc. apply lookup_seqZ in Hc as [-> _].
    unfold take_sample in Htake.
    apply bind_Ok_inv in Htake as (ct & _ & Htake).
    apply bind_Ok_inv in Htake as (cb & Hcb & [= <-]).
    apply to_bytes_Ok_iff in Hcb. simpl. by rewrite Z.add_0_l in Hcb. }
  split_and!; [| done |].
  - rewrite <- (Forall2_length _ _ _ H). unfold range. apply length_seqZ.
  - apply NoDup_alt. intros i j c Hi Hj.
    apply list_lookup_fmap_Some in Hi as (si & -> & Hsi).
    apply list_lookup_fmap_Some in Hj as (sj & Hc & Hsj).
    destruct (Hcounters i si Hsi) as [_ Hi], (Hcounters j sj Hsj) as [_ Hj].
    rewrite Hc in Hi. lia.
Qed.

(** X20: on a cache that holds at least one sample, [gather] returns
    the nonce and the samples of the cache and writes them back; the
    oracle is not asked, no fresh nonce is used, and [num_samples] has
    no effect on how many samples there are. *)
Theorem gather_cache_hit (file : option (list row)) (fresh_nonce : list byte)
    (counter_size num_samples : Z) (nonce : option (list byte))
    (samples : list sample) :
  read_cache file = (nonce, samples) → samples ≠ [] →
  ∃ n, nonce = Some n
    ∧ gather oracle token (Some file) fresh_nonce counter_size num_samples
      = Ok (Some n, samples, Some (write_cache (Some n) samples)).
Proof.
  intros Hread Hne.
  assert (is_Some nonce) as [n ->].
  { destruct file as [rows|]; [|by injection Hread as <- <-].
    unfold read_cache in Hread.
    pose proof (read_rows_nonce rows None [] ltac:(done)) as Hn.
    rewrite Hread in Hn. by apply Hn. }
  exists n. split; [done|]. unfold gather. rewrite Hread.
  by rewrite bool_decide_eq_false_2 by done.
Qed.

(** X21: when [gather] has run with a cache and returned samples, and
    the nonce and the counters and keystreams of these samples have at
    most 65536 bytes (so that [csv.reader] accepts every field written),
    the cache it leaves reads back as the nonce and the samples it
    returned, and a later [gather] on that cache returns the same nonce
    and samples and writes the same rows, whatever oracle, randomness
    and sample count it is run with. *)
Theorem gather_cache_stable (file : option (list row)) (fresh_nonce : list byte)
    (counter_size num_samples : Z) (nonce : option (list byte))
    (samples : list sample) (file' : option (list row)) :
  gather oracle token (Some file) fresh_nonce counter_size num_samples
    = Ok (nonce, samples, file') →
  samples ≠ [] →
  (∀ n, nonce = Some n → len n ≤ 65536) →
  Forall (λ s : sample, len s.1 ≤ 65536 ∧ len s.2 ≤ 65536) samples →
  ∃ n rows,
    nonce = Some n ∧ file' = Some rows
    ∧ read_cache (Some (csv_read_written rows)) = (Some n, samples)
    ∧ ∀ oracle' token' fresh_nonce' counter_size' num_samples',
        gather oracle' token' (Some (Some (csv_read_written rows)))
          fresh_nonce' counter_size' num_samples'
        = Ok (Some n, samples, Some rows).
Proof.
  intros Hg Hne Hnonce Hsizes.
  assert (∃ n, nonce = Some n ∧ file' = Some (write_cache (Some n) samples))
    as (n & -> & ->).
  { unfold gather in Hg. destruct (read_cache file) as [n0 s0] eqn:Hread.
    case_bool_decide as Hs0.
    - apply bind_Ok_inv in Hg as ([n1 s1] & Hc & [= <- <- <-]).
      apply bind_Ok_inv in Hc as (s & _ & [= <- <-]). by exists fresh_nonce.
    - assert (is_Some n0) as [n ->].
      { destruct file as [rows|]; [|by injection Hread as <- <-].
        unfold read_cache in Hread.
        pose proof (read_rows_nonce rows None [] ltac:(done)) as Hn.
        rewrite Hread in Hn. by apply Hn. }
      injection Hg as <- <- <-. by exists n. }
  assert (read_cache (Some (csv_read_written (write_cache (Some n) samples)))
          = (Some n, samples)) as Hread.
  { rewrite cache_round_trip_aux, decide_False by eauto. done. }
  exists n, (write_cache (Some n) samples). split_and!; try done.
  intros oracle' token' fresh' cs' num'. unfold gather. rewrite Hread.
  by rewrite bool_decide_eq_false_2 by done.
Qed.

End SamplingProperties.

(** Instances of the theorems on sampling, with an oracle that xors the
    plaintext with the keystream [5a 5a 5a 5a] and plaintexts [01 02]. *)

Lemma collect_samples_stream_witness :
  [([Byte.x00], [Byte.x5a; Byte.x5a]); ([Byte.x01], [Byte.x5a; Byte.x5a])].*2
  = (λ c, take (length [Byte.x01; Byte.x02]) (replicate 4 Byte.x5a)) <$> range 2.
Proof.
  apply (collect_samples_stream
           (λ _ _ pt, Ok (xor_bytes pt (replicate 4 Byte.x5a)))
           (λ _, [Byte.x01; Byte.x02]) (λ _, replicate 4 Byte.x5a)
           [Byte.x07] 1 2);
    [vm_compute; reflexivity | reflexivity].
Defined.

Lemma collect_samples_overflow_witness :
  collect_samples (λ _ _ pt, Ok (xor_bytes pt (replicate 4 Byte.x5a)))
    (λ _, [Byte.x01; Byte.x02]) [Byte.x07] 0 2
  = Raise OverflowError.
Proof.
  apply (collect_samples_overflow
           (λ _ _ pt, Ok (xor_bytes pt (replicate 4 Byte.x5a)))
           (λ _, [Byte.x01; Byte.x02]) [Byte.x07] 0 2);
    [lia | simpl; lia | intros c _; by eexists].
Defined.

Lemma collect_samples_counters_witness :
  length [([Byte.x00], [Byte.x5a; Byte.x5a]); ([Byte.x01], [Byte.x5a; Byte.x5a])]
  = Z.to_nat 2
  ∧ (∀ (i : nat) s,
       [([Byte.x00], [Byte.x5a; Byte.x5a]); ([Byte.x01], [Byte.x5a; Byte.x5a])]
         !! i = Some s →
       len s.1 = 1 ∧ le_int s.1 = Z.of_nat i)
  ∧ NoDup
      [([Byte.x00], [Byte.x5a; Byte.x5a]); ([Byte.x01], [Byte.x5a; Byte.x5a])].*1.
Proof.
  apply (collect_samples_counters
           (λ _ _ pt, Ok (xor_bytes pt (replicate 4 Byte.x5a)))
           (λ _, [Byte.x01; Byte.x02]) [Byte.x07] 1 2).
  vm_compute. reflexivity.
Defined.

Lemma gather_cache_hit_witness :
  ∃ n, Some [Byte.x01; Byte.x02] = Some n
    ∧ gather (λ _ _ pt, Ok (xor_bytes pt (replicate 4 Byte.x5a)))
        (λ _, [Byte.x01; Byte.x02]) (Some (Some [["0102"; "00"; "aabb"]]))
        [Byte.x07] 1 5
      = Ok (Some n, [([Byte.x00], [Byte.xaa; Byte.xbb])],
            Some (write_cache (Some n) [([Byte.x00], [Byte.xaa; Byte.xbb])])).
Proof.
  apply (gather_cache_hit
           (λ _ _ pt, Ok (xor_bytes pt (replicate 4 Byte.x5a)))
           (λ _, [Byte.x01; Byte.x02]) (Some [["0102"; "00"; "aabb"]])
           [Byte.x07] 1 5 (Some [Byte.x01; Byte.x02])
           [([Byte.x00], [Byte.xaa; Byte.xbb])]);
    [vm_compute; reflexivity | discriminate].
Defined.

Lemma gather_cache_stable_witness :
  ∃ n rows,
    Some [Byte.x07] = Some n
    ∧ Some [["07"; "00"; "5a5a"]; ["07"; "01"; "5a5a"]] = Some rows
    ∧ read_cache (Some (csv_read_written rows))
      = (Some n,
         [([Byte.x00], [Byte.x5a; Byte.x5a]); ([Byte.x01], [Byte.x5a; Byte.x5a])])
    ∧ ∀ oracle' token' fresh_nonce' counter_size' num_samples',
        gather oracle' token' (Some (Some (csv_read_written rows)))
          fresh_nonce' counter_size' num_samples'
        = Ok (Some n,
              [([Byte.x00], [Byte.x5a; Byte.x5a]);
               ([Byte.x01], [Byte.x5a; Byte.x5a])],
              Some rows).
Proof.
  apply (gather_cache_stable
           (λ _ _ pt, Ok (xor_bytes pt (replicate 4 Byte.x5a)))
           (λ _, [Byte.x01; Byte.x02]) None [Byte.x07] 1 2
           (Some [Byte.x07])
           [([Byte.x00], [Byte.x5a; Byte.x5a]); ([Byte.x01], [Byte.x5a; Byte.x5a])]
           (Some [["07"; "00"; "5a5a"]; ["07"; "01"; "5a5a"]])).
  - vm_compute. reflexivity.
  - discriminate.
  - intros n [= <-]. unfold len. simpl. lia.
  - repeat constructor; unfold len; simpl; lia.
Defined.
